(** * convert_to_movie.py: pairing slide images with narration and building
      the video timeline

    A shallow embedding of [SlideVideoGenerator] from
    [.devcontainer/app/convert_to_movie.py], and the properties of its file
    matcher ([extract_number_from_filename], [find_matching_files]) and of
    [generate_video] (the clip loop, the running total, the cleanup in the
    [finally] block).

    Modelling choices, all stated where they are made:
    - file names are strings of 8-bit characters, [\d] is an ASCII digit;
    - Python's [int] is unbounded, so page numbers are [N];
    - durations (Python floats) are exact rationals [Q]: rounding is outside
      the model;
    - progress messages ([print] under [self.verbose]) are left out, they
      change neither results nor exceptions;
    - moviepy and the file system are an environment record saying which
      calls succeed, plus the list of media resources currently open. *)

From Stdlib Require Import QArith Ascii DecimalString DecimalN.
From stdpp Require Import gmap strings list sorting.

Close Scope Q_scope.

(** ** Characters and digit runs *)

(** [\d] on the characters of the model. *)
Definition is_digit (c : ascii) : bool :=
  (48 <=? nat_of_ascii c) && (nat_of_ascii c <=? 57).

Definition digit_value (c : ascii) : N := N.of_nat (nat_of_ascii c - 48).

(** [int(s)] on a run of digits: base ten, leading zeros allowed.  A file
    name is at most a few hundred characters long, far below the length
    at which [int] refuses a string of digits. *)
Definition int_of_digits (ds : list ascii) : N :=
  foldl (fun acc c => 10 * acc + digit_value c)%N 0%N ds.

(** The pending match, emitted when it is not empty. *)
Definition flush (cur : list ascii) : list (list ascii) :=
  match cur with
  | [] => []
  | _ :: _ => [cur]
  end.

(** [re.findall(r'\d+', s)]: the scan goes left to right; [cur] is the match
    in progress.  A digit extends it (the [+] is greedy), any other character
    ends it. *)
Fixpoint findall_digits_from (cur : list ascii) (s : list ascii)
  : list (list ascii) :=
  match s with
  | [] => flush cur
  | c :: s' =>
      if is_digit c then findall_digits_from (cur ++ [c]) s'
      else flush cur ++ findall_digits_from [] s'
  end.

Definition findall_digits (s : list ascii) : list (list ascii) :=
  findall_digits_from [] s.

(** [SlideVideoGenerator.extract_number_from_filename] (lines 45-60). *)
Definition extract_number_from_filename (filename : string) : option N :=
  let numbers := findall_digits (String.list_ascii_of_string filename) in
  match last numbers with
  | Some ds => Some (int_of_digits ds)
  | None => None
  end.

(** ** Paths and directory scans *)

(** [input_dir / entry]; [name] is [Path.name]. *)
Record Path := mkPath { parent : string; name : string }.

Fixpoint suffix_chars (suf s : list ascii) (n : nat) : bool :=
  match n with
  | O => bool_decide (suf = s)
  | S n' =>
      match s with
      | [] => false
      | _ :: s' => suffix_chars suf s' n'
      end
  end.

(** The pattern ["*" + ext] matches exactly the names that end in [ext]
    (the star also matches the empty string and a leading dot). *)
Definition glob_matches (ext entry : string) : bool :=
  let e := String.list_ascii_of_string ext in
  let s := String.list_ascii_of_string entry in
  (length e <=? length s) && suffix_chars e s (length s - length e).

(** [self.input_dir.glob(f"*{ext}")]: [entries] is the directory listing in
    the order the operating system returns it, which is the order glob
    yields. *)
Definition glob (input_dir : string) (entries : list string) (ext : string)
  : list Path :=
  mkPath input_dir <$> filter (fun e => glob_matches ext e = true) entries.

(** The members of the two set literals (lines 70 and 80).  A Python set of
    strings iterates in an order that depends on the per-process string hash
    seed, so the iteration order is an input of [find_matching_files]. *)
Definition image_extensions : list string :=
  [".png"; ".jpg"; ".jpeg"; ".bmp"; ".tiff"].
Definition audio_extensions : list string :=
  [".wav"; ".mp3"; ".aac"; ".m4a"; ".ogg"].

(** Body of the inner loops (lines 75-77 and 85-87):
    [number = extract(...); if number is not None: files[number] = file]. *)
Definition record_file (files : gmap N Path) (file : Path) : gmap N Path :=
  match extract_number_from_filename (name file) with
  | Some number => <[number := file]> files
  | None => files
  end.

(** The nested loops [for ext in exts: for f in glob(ext): ...]. *)
Definition collect_files (input_dir : string) (entries : list string)
    (exts : list string) : gmap N Path :=
  foldl (fun files ext => foldl record_file files (glob input_dir entries ext))
        ∅ exts.

(** ** Exceptions *)

Inductive Message :=
  | NoMatchingPairs      (* line 94: no image/audio pair found *)
  | NoProcessablePairs.  (* line 174: no pair to process *)

Inductive Operation :=
  | OpAudioFileClip (p : Path)
  | OpImageClip (p : Path)
  | OpResized
  | OpConcatenate
  | OpWrite.

Inductive Exception :=
  | ValueError (m : Message)
  | KeyError (number : N)
  | BackendError (op : Operation).

(** ** The matcher *)

(** The loop of lines 96-97; a subscript on a missing key raises [KeyError]. *)
Fixpoint make_pairs (image_files audio_files : gmap N Path)
    (numbers : list N) : Exception + list (Path * Path) :=
  match numbers with
  | [] => inr []
  | number :: rest =>
      match image_files !! number, audio_files !! number with
      | Some img, Some aud =>
          match make_pairs image_files audio_files rest with
          | inr pairs => inr ((img, aud) :: pairs)
          | inl e => inl e
          end
      | _, _ => inl (KeyError number)
      end
  end.

(** [sorted] on a set of integers. *)
Definition sorted (s : gset N) : list N := merge_sort N.le (elements s).

(** [SlideVideoGenerator.find_matching_files] (lines 62-113).
    [image_order] and [audio_order] are the iteration orders of the two
    extension sets in this run. *)
Definition find_matching_files (input_dir : string)
    (image_order audio_order : list string) (entries : list string)
  : Exception + list (Path * Path) :=
  let image_files := collect_files input_dir entries image_order in
  let audio_files := collect_files input_dir entries audio_order in
  let common_numbers := dom image_files ∩ dom audio_files in
  if decide (common_numbers = ∅) then inl (ValueError NoMatchingPairs)
  else make_pairs image_files audio_files (sorted common_numbers).

(** ** The media backend *)

Definition Resolution : Type := Z * Z.

(** What [AudioFileClip(path)] returns: an open reader and its length. *)
Record AudioClip := mkAudioClip { audio_path : Path; audio_duration : Q }.

(** A video clip value: the still image, how long it is shown, the audio
    attached by [with_audio], the size set by [resized]. *)
Record Clip := mkClip {
  clip_image : Path;
  clip_duration : Q;
  clip_audio : option AudioClip;
  clip_size : option Resolution
}.

(** A media resource that is open and has to be closed. *)
Inductive Resource :=
  | AudioReader (p : Path)
  | ImageFrame (p : Path) (duration : Q)
  | Composite.

Global Instance Path_eq_dec : EqDecision Path.
Proof. solve_decision. Defined.
Global Instance Q_eq_dec : EqDecision Q.
Proof. solve_decision. Defined.
Global Instance Resource_eq_dec : EqDecision Resource.
Proof. solve_decision. Defined.

(** Which calls into moviepy and the file system succeed in this run. *)
Record Backend := mkBackend {
  audio_length : Path -> option Q;  (* [AudioFileClip(p).duration]; [None]: the call raises *)
  image_loads : Path -> bool;       (* [ImageClip(p, ...)] *)
  resize_ok : Resolution -> bool;   (* [clip.resized(resolution)] *)
  concatenate_ok : bool;            (* [concatenate_videoclips] *)
  write_ok : bool                   (* [mkdir], [write_videofile], [stat] *)
}.

(** The resources open in the process and the local variables of
    [generate_video] that outlive an exception (the [finally] block reads
    them). *)
Record Frame := mkFrame {
  opened : list Resource;
  clips : list Clip;
  total_duration : Q;
  final_video : option (list Clip)
}.

(** State and exceptions: a computation runs from a frame to a frame and
    either raises or returns. *)
Definition M (A : Type) : Type := Frame -> Frame * (Exception + A).

Definition ret {A} (x : A) : M A := fun fr => (fr, inr x).
Definition raise {A} (e : Exception) : M A := fun fr => (fr, inl e).
Definition bind {A B} (c : M A) (k : A -> M B) : M B :=
  fun fr =>
    match c fr with
    | (fr', inr x) => k x fr'
    | (fr', inl e) => (fr', inl e)
    end.

Notation "'do' x <- c ; k" := (bind c (fun x => k))
  (at level 10, x name, c at level 100, k at level 200).
Notation "c ;; k" := (bind c (fun _ => k))
  (at level 100, k at level 200, right associativity).

(** [try: body finally: cleanup]: the cleanup runs on the frame the body
    left, whether it returned or raised; an exception of the cleanup
    replaces the outcome of the body. *)
Definition try_finally {A} (body : M A) (cleanup : M unit) : M A :=
  fun fr =>
    match body fr with
    | (fr1, outcome) =>
        match cleanup fr1 with
        | (fr2, inr _) => (fr2, outcome)
        | (fr2, inl e) => (fr2, inl e)
        end
    end.

Definition acquire (r : Resource) : M unit :=
  fun fr => (mkFrame (r :: opened fr) (clips fr) (total_duration fr)
               (final_video fr), inr tt).

Fixpoint release_one (r : Resource) (rs : list Resource) : list Resource :=
  match rs with
  | [] => []
  | r' :: rs' => if decide (r = r') then rs' else r' :: release_one r rs'
  end.

Definition release (r : Resource) : M unit :=
  fun fr => (mkFrame (release_one r (opened fr)) (clips fr)
               (total_duration fr) (final_video fr), inr tt).

(** [clips.append(clip)] *)
Definition append_clip (c : Clip) : M unit :=
  fun fr => (mkFrame (opened fr) (clips fr ++ [c]) (total_duration fr)
               (final_video fr), inr tt).

(** [total_duration += d] *)
Definition add_duration (d : Q) : M unit :=
  fun fr => (mkFrame (opened fr) (clips fr) (total_duration fr + d)%Q
               (final_video fr), inr tt).

Definition set_final_video (v : list Clip) : M unit :=
  fun fr => (mkFrame (opened fr) (clips fr) (total_duration fr) (Some v),
             inr tt).

Definition get_frame : M Frame := fun fr => (fr, inr fr).

(** The test [q > 0] on a duration. *)
Definition is_positive (q : Q) : bool := (0 <? Qnum q)%Z.

Section Backend.
Variable B : Backend.

Definition AudioFileClip (p : Path) : M AudioClip :=
  match audio_length B p with
  | Some d => acquire (AudioReader p) ;; ret (mkAudioClip p d)
  | None => raise (BackendError (OpAudioFileClip p))
  end.

Definition ImageClip (p : Path) (duration : Q) : M Clip :=
  if image_loads B p
  then acquire (ImageFrame p duration) ;; ret (mkClip p duration None None)
  else raise (BackendError (OpImageClip p)).

(** [clip.with_audio(audio_clip)]: a copy of the clip with the audio set. *)
Definition with_audio (c : Clip) (a : AudioClip) : Clip :=
  mkClip (clip_image c) (clip_duration c) (Some a) (clip_size c).

(** [clip.resized(resolution)]: a copy of the clip that shares its
    resources. *)
Definition resized (c : Clip) (r : Resolution) : M Clip :=
  if resize_ok B r
  then ret (mkClip (clip_image c) (clip_duration c) (clip_audio c) (Some r))
  else raise (BackendError OpResized).

(** [clip.close()], in the reading most favourable to the caller: it
    never raises, and closing a video clip also closes the audio attached
    to it. *)
Definition close (c : Clip) : M unit :=
  release (ImageFrame (clip_image c) (clip_duration c)) ;;
  match clip_audio c with
  | Some a => release (AudioReader (audio_path a))
  | None => ret tt
  end.

(** [if resolution: clip = clip.resized(resolution)] *)
Definition resize_if (resolution : option Resolution) (c : Clip) : M Clip :=
  match resolution with
  | Some r => resized c r
  | None => ret c
  end.

(** [SlideVideoGenerator.create_slide_clip] (lines 115-142). *)
Definition create_slide_clip (image_path audio_path : Path) : M Clip :=
  do audio_clip <- AudioFileClip audio_path ;
  let duration := audio_duration audio_clip in
  do image_clip <- ImageClip image_path duration ;
  let video_clip := with_audio image_clip audio_clip in
  ret video_clip.

Section Pacing.
Variable resolution : option Resolution.
Variables pause_before pause_after : Q.

(** Lines 187-191 and 206-210: a silent still of [image_file]. *)
Definition add_pause (image_file : Path) (pause : Q) : M unit :=
  do pause_clip <- ImageClip image_file pause ;
  do pause_clip <- resize_if resolution pause_clip ;
  append_clip pause_clip ;;
  add_duration pause.

(** One iteration of the loop of line 181, at index [i] of [n] pairs.
    [n - 1] is only evaluated inside the loop, where [n >= 1], so the
    truncated subtraction of [nat] is the integer one. *)
Definition loop_body (n i : nat) (image_file audio_file : Path) : M unit :=
  (if (0 <? i)%nat && is_positive pause_before
   then add_pause image_file pause_before
   else ret tt) ;;
  do clip <- create_slide_clip image_file audio_file ;
  do clip <- resize_if resolution clip ;
  append_clip clip ;;
  add_duration (clip_duration clip) ;;
  (if (i <? n - 1)%nat && is_positive pause_after
   then add_pause image_file pause_after
   else ret tt).

(** [for i, (image_file, audio_file) in enumerate(slide_pairs)], from
    index [i] on. *)
Fixpoint timeline_loop (n i : nat) (slide_pairs : list (Path * Path))
  : M unit :=
  match slide_pairs with
  | [] => ret tt
  | (image_file, audio_file) :: rest =>
      loop_body n i image_file audio_file ;;
      timeline_loop n (S i) rest
  end.

(** Lines 219-241: concatenate, write, return the output path. *)
Definition encode (output_path : string) : M string :=
  do fr <- get_frame ;
  (if concatenate_ok B
   then acquire Composite ;; set_final_video (clips fr)
   else raise (BackendError OpConcatenate)) ;;
  if write_ok B then ret output_path
  else raise (BackendError OpWrite).

Fixpoint close_all (cs : list Clip) : M unit :=
  match cs with
  | [] => ret tt
  | c :: cs' => close c ;; close_all cs'
  end.

(** The [finally] block (lines 243-251). *)
Definition cleanup : M unit :=
  do fr <- get_frame ;
  match final_video fr with
  | Some _ => release Composite
  | None => ret tt
  end ;;
  close_all (clips fr).

(** [generate_video] after the call of line 171: the guard of lines
    173-174, then the [try] statement. *)
Definition render (output_path : string)
    (slide_pairs : list (Path * Path)) : M string :=
  match slide_pairs with
  | [] => raise (ValueError NoProcessablePairs)
  | _ :: _ =>
      try_finally
        (timeline_loop (length slide_pairs) 0 slide_pairs ;;
         encode output_path)
        cleanup
  end.

(** [SlideVideoGenerator.generate_video] (lines 144-251). *)
Definition generate_video (input_dir : string)
    (image_order audio_order : list string) (entries : list string)
    (output_path : string) : M string :=
  match find_matching_files input_dir image_order audio_order entries with
  | inl e => raise e
  | inr slide_pairs => render output_path slide_pairs
  end.
End Pacing.
End Backend.

(** The frame at the call: [already_open] is whatever the process holds;
    [clips = []] and [total_duration = 0] are lines 176-177, and
    [final_video] is not yet bound. *)
Definition start (already_open : list Resource) : Frame :=
  mkFrame already_open [] 0%Q None.

(** * Notions used in the statements *)

Abbreviation chars := String.list_ascii_of_string.

Definition all_digits (s : list ascii) : Prop :=
  Forall (fun c => is_digit c = true) s.
Definition no_digit (s : list ascii) : Prop :=
  Forall (fun c => is_digit c = false) s.

(** A digit run that starts right after [pre] is maximal on the left when
    [pre] does not end in a digit. *)
Definition not_ending_in_digit (pre : list ascii) : Prop :=
  forall pre' c, pre = pre' ++ [c] -> is_digit c = false.



(** The files in the order the nested loops visit them. *)
Definition scan (input_dir : string) (entries : list string)
    (exts : list string) : list Path :=
  flat_map (glob input_dir entries) exts.

(** The page numbers that occur among [files]. *)
Definition page_indices (files : list Path) : gset N :=
  list_to_set (omap (fun f => extract_number_from_filename (name f)) files).

(** The recognised images and audio files of a directory, and their page
    numbers; the sets do not depend on any iteration order. *)
Definition image_indices (input_dir : string) (entries : list string) : gset N :=
  page_indices (scan input_dir entries image_extensions).
Definition audio_indices (input_dir : string) (entries : list string) : gset N :=
  page_indices (scan input_dir entries audio_extensions).

(** The file with page number [number] that the scan visits last. *)
Definition last_scanned (number : N) (files : list Path) : option Path :=
  last (filter (fun f => extract_number_from_filename (name f) = Some number)
               files).

(** The resources a clip holds, most recently opened first. *)
Definition clip_resources (c : Clip) : list Resource :=
  ImageFrame (clip_image c) (clip_duration c)
  :: match clip_audio c with
     | Some a => [AudioReader (audio_path a)]
     | None => []
     end.

(** The frame after the clips [cs] were opened, appended and counted. *)
Definition run_clips (cs : list Clip) (fr : Frame) : Frame :=
  mkFrame
    (foldl (fun o c => clip_resources c ++ o) (opened fr) cs)
    (clips fr ++ cs)
    (foldl (fun t c => t + clip_duration c)%Q (total_duration fr) cs)
    (final_video fr).

(** The clips the loop makes, as plain lists. *)
Section Segments.
Variable B : Backend.
Variable resolution : option Resolution.
Variables pause_before pause_after : Q.

(** The still shown during a pause, and a narrated slide. *)
Definition pause_clip (image_file : Path) (pause : Q) : Clip :=
  mkClip image_file pause None resolution.
Definition slide_clip (image_file audio_file : Path) (d : Q) : Clip :=
  mkClip image_file d (Some (mkAudioClip audio_file d)) resolution.

Definition pause_before_of (i : nat) (image_file : Path) : list Clip :=
  if (0 <? i)%nat && is_positive pause_before
  then [pause_clip image_file pause_before] else [].
Definition pause_after_of (n i : nat) (image_file : Path) : list Clip :=
  if (i <? n - 1)%nat && is_positive pause_after
  then [pause_clip image_file pause_after] else [].

(** The clips of the pair at index [i] of [n]. *)
Definition segments (n i : nat) (image_file audio_file : Path) (d : Q)
  : list Clip :=
  pause_before_of i image_file
  ++ [slide_clip image_file audio_file d]
  ++ pause_after_of n i image_file.

Fixpoint timeline (n i : nat) (slide_pairs : list (Path * Path))
    (durations : list Q) : list Clip :=
  match slide_pairs, durations with
  | (image_file, audio_file) :: rest, d :: ds =>
      segments n i image_file audio_file d ++ timeline n (S i) rest ds
  | _, _ => []
  end.

(** The backend serves the pair: the audio opens with length [d], the
    image loads. *)
Definition served (pair : Path * Path) (d : Q) : Prop :=
  image_loads B pair.1 = true /\ audio_length B pair.2 = Some d.

End Segments.

Definition sum_durations (ds : list Q) : Q := foldr Qplus 0%Q ds.

(** [k] times the duration [q]. *)
Definition times (k : nat) (q : Q) : Q := (inject_Z (Z.of_nat k) * q)%Q.

(** The pause that is really inserted: none when the value is not
    positive. *)
Definition effective (pause : Q) : Q := if is_positive pause then pause else 0%Q.

Definition backend_errors_only {A} (c : M A) : Prop :=
  forall fr fr' e, c fr = (fr', inl e) -> exists op, e = BackendError op.

(** Every image loads, every audio file opens: two seconds for
    [voice02.wav], three for any other. *)
Definition studio : Backend :=
  mkBackend
    (fun p => if decide (name p = "voice02.wav"%string)
              then Some 2%Q else Some 3%Q)
    (fun _ => true) (fun _ => true) true true.

(** The audio opens, the image of the slide cannot be read. *)
Definition unreadable_image : Backend :=
  mkBackend (fun _ => Some 3%Q) (fun _ => false) (fun _ => true) true true.

(** ** More of the matcher *)

(** Lines 105-106, computed for the warnings of lines 108-111: the page
    numbers that have an image but no audio file, and the converse. *)
Definition missing_audio (image_files audio_files : gmap N Path) : gset N :=
  dom image_files ∖ dom audio_files.
Definition missing_images (image_files audio_files : gmap N Path) : gset N :=
  dom audio_files ∖ dom image_files.

(** The two lists that the warnings print, [sorted(missing_audio)] and
    [sorted(missing_images)]. *)
Definition unmatched_report (input_dir : string)
    (image_order audio_order : list string) (entries : list string)
  : list N * list N :=
  let image_files := collect_files input_dir entries image_order in
  let audio_files := collect_files input_dir entries audio_order in
  (sorted (missing_audio image_files audio_files),
   sorted (missing_images image_files audio_files)).

(** A directory entry that one of the ten patterns matches. *)
Definition recognised (entry : string) : bool :=
  existsb (fun ext => glob_matches ext entry)
    (image_extensions ++ audio_extensions).

(** The page numbers of the files of a scan, one per file that has one. *)
Definition scanned_numbers (files : list Path) : list N :=
  omap (fun f => extract_number_from_filename (name f)) files.

(** The narrated slides of the pairs, in their order. *)
Definition slides (resolution : option Resolution)
    (slide_pairs : list (Path * Path)) (durations : list Q) : list Clip :=
  zip_with (fun p d => slide_clip resolution p.1 p.2 d) slide_pairs durations.

(** What follows a slide that shows [previous]: for each later pair, the
    pause after on the image of the slide before it, the pause before on
    its own image, then its narrated slide. *)
Fixpoint after_slide (resolution : option Resolution)
    (pause_before pause_after : Q) (previous : Path)
    (slide_pairs : list (Path * Path)) (durations : list Q) : list Clip :=
  match slide_pairs, durations with
  | (image_file, audio_file) :: rest, d :: ds =>
      (if is_positive pause_after
       then [pause_clip resolution previous pause_after] else [])
      ++ (if is_positive pause_before
          then [pause_clip resolution image_file pause_before] else [])
      ++ [slide_clip resolution image_file audio_file d]
      ++ after_slide resolution pause_before pause_after image_file rest ds
  | _, _ => []
  end.

(** [k] zeros. *)
Definition zeros (k : nat) : string :=
  String.string_of_list_ascii (replicate k "0"%char).

(** * marp_note_to_voice.py: narration from the comments of the slides

    [MarpToVoice]: the comments of a Marp deck are extracted page by page
    and sent to the speech server; the audio of page [p] is written to
    [slide_page_pp.wav].  The text of the deck is a list of code points;
    the speech server and the file system are an environment record. *)

(** ** File names *)

(** [str(n)] for an integer that is not negative. *)
Definition str (n : N) : string := NilEmpty.string_of_uint (N.to_uint n).

(** [f"{n:02d}"]: the decimal digits, filled with zeros on the left up to
    two characters. *)
Definition format_02d (n : N) : string :=
  (zeros (2 - String.length (str n)) +:+ str n)%string.

(** The name of [output_file] (line 124). *)
Definition output_file_name (page_num : N) : string :=
  ("slide_page_" +:+ format_02d page_num +:+ ".wav")%string.

(** ** Text *)

Abbreviation Text := (list N).

Definition code (c : ascii) : N := N.of_nat (nat_of_ascii c).
Definition text_of (s : string) : Text := code <$> chars s.

(** [str.isspace] on one code point, which is also the class [\s] of [re]
    on [str]. *)
Definition is_space (c : N) : bool :=
  ((9 <=? c) && (c <=? 13) || (28 <=? c) && (c <=? 32)
   || (c =? 133) || (c =? 160) || (c =? 5760)
   || (8192 <=? c) && (c <=? 8202)
   || (c =? 8232) || (c =? 8233) || (c =? 8239) || (c =? 8287)
   || (c =? 12288))%N.

Fixpoint lstrip (s : Text) : Text :=
  match s with
  | c :: s' => if is_space c then lstrip s' else s
  | [] => []
  end.
Definition rstrip (s : Text) : Text := reverse (lstrip (reverse s)).

(** [s.strip()] *)
Definition strip (s : Text) : Text := rstrip (lstrip s).

(** [s.startswith(pre)] *)
Fixpoint starts_with (pre s : Text) : bool :=
  match pre, s with
  | [], _ => true
  | p :: pre', c :: s' => (p =? c)%N && starts_with pre' s'
  | _ :: _, [] => false
  end.

(** [content.split('---')]: the separators are found from left to right
    and do not overlap; [cur] is the part in progress. *)
Fixpoint split_dashes_from (cur : Text) (s : Text) : list Text :=
  match s with
  | [] => [cur]
  | c1 :: t =>
      match t with
      | c2 :: c3 :: rest =>
          if ((c1 =? 45) && (c2 =? 45) && (c3 =? 45))%N
          then cur :: split_dashes_from [] rest
          else split_dashes_from (cur ++ [c1]) t
      | _ => split_dashes_from (cur ++ [c1]) t
      end
  end.
Definition split_dashes (s : Text) : list Text := split_dashes_from [] s.

(** [re.findall(r'<!--\s*(.*?)\s*-->', slide, re.DOTALL)].  A match starts
    at the first [<!--] and ends at the first [-->] after it; the group is
    what lies between, without the white space at its two ends (the lazy
    [.*?] stops as soon as white space and [-->] follow).  [inside] is the
    text read since the opening mark, when one is open; an opening mark
    that is never closed gives no match. *)
Fixpoint scan_comments (inside : option Text) (s : Text) : list Text :=
  match s with
  | [] => []
  | c1 :: t =>
      match inside with
      | None =>
          match t with
          | c2 :: c3 :: c4 :: rest =>
              if ((c1 =? 60) && (c2 =? 33) && (c3 =? 45) && (c4 =? 45))%N
              then scan_comments (Some []) rest
              else scan_comments None t
          | _ => scan_comments None t
          end
      | Some cur =>
          match t with
          | c2 :: c3 :: rest =>
              if ((c1 =? 45) && (c2 =? 45) && (c3 =? 62))%N
              then strip cur :: scan_comments None rest
              else scan_comments (Some (cur ++ [c1])) t
          | _ => scan_comments (Some (cur ++ [c1])) t
          end
      end
  end.
Definition findall_comments (slide : Text) : list Text :=
  scan_comments None slide.

(** [' '.join(parts)] *)
Fixpoint join_space (parts : list Text) : Text :=
  match parts with
  | [] => []
  | [p] => p
  | p :: rest => p ++ [32%N] ++ join_space rest
  end.

(** The test of line 65: a blank part, or the front matter. *)
Definition skipped (slide : Text) : bool :=
  bool_decide (strip slide = []) || starts_with (text_of "marp:") (strip slide).

(** Lines 71-78: the text to speak for a slide, when there is one. *)
Definition comment_of (slide : Text) : option Text :=
  match findall_comments slide with
  | [] => None
  | matches =>
      match strip (join_space matches) with
      | [] => None
      | comment_text => Some comment_text
      end
  end.

(** The body of the loop of line 63 on [(page_num, comments)]. *)
Definition page_step (st : N * list (N * Text)) (slide : Text)
  : N * list (N * Text) :=
  if skipped slide then st
  else
    let page_num := N.succ st.1 in
    match comment_of slide with
    | Some comment_text => (page_num, st.2 ++ [(page_num, comment_text)])
    | None => (page_num, st.2)
    end.

(** [MarpToVoice.extract_comments_from_slide] (lines 37-81).  [content] is
    what reading the file gives, [None] when [open] or [read] raises. *)
Definition extract_comments_from_slide (content : option Text)
  : list (N * Text) :=
  match content with
  | None => []
  | Some content => (foldl page_step (0%N, []) (split_dashes content)).2
  end.

(** The parts of the deck that count as pages, in their order. *)
Definition pages (content : Text) : list Text :=
  filter (fun slide => skipped slide = false) (split_dashes content).

(** The comments of the pages [slides], numbered from [n + 1]. *)
Fixpoint numbered_from (n : N) (slides : list Text) : list (N * Text) :=
  match slides with
  | [] => []
  | slide :: rest =>
      match comment_of slide with
      | Some comment_text => [(N.succ n, comment_text)]
      | None => []
      end ++ numbered_from (N.succ n) rest
  end.

(** [pat] occurs in [s]. *)
Definition occurs (pat s : Text) : Prop :=
  exists before after, s = before ++ pat ++ after.

(** ** The speech server *)

(** The outcome of an HTTP request: it raised, or it was answered. *)
Inductive Reply (A : Type) :=
  | NoReply
  | Answer (status_code : nat) (body : A).
Arguments NoReply {A}.
Arguments Answer {A} status_code body.

Section Voice.
Variables Json Audio : Type.

(** What lines 125-126 do to the output file: it is written; or [open]
    raises and the file is as before; or [write] raises after [open]
    created or emptied the file, which then holds [remains]. *)
Inductive WriteOutcome :=
  | Written
  | OpenFailed
  | WriteFailed (remains : Audio).

(** The world of one run.  A body [None] is a body on which
    [response.json()] raises. *)
Record Voicevox := mkVoicevox {
  get_version : Reply (option Json);
  post_audio_query : Text -> Reply (option Json);
  post_synthesis : Json -> Reply Audio;
  write_file : string -> Audio -> WriteOutcome
}.

Variable V : Voicevox.

(** [MarpToVoice.check_voicevox_connection] (lines 141-160). *)
Definition check_voicevox_connection : bool :=
  match get_version V with
  | Answer status_code (Some _) => (status_code =? 200)%nat
  | Answer status_code None => false
  | NoReply => false
  end.

(** [MarpToVoice.text_to_speech] (lines 83-139), on the files of the
    output directory. *)
Definition text_to_speech (text : Text) (page_num : N)
    (files : gmap string Audio) : bool * gmap string Audio :=
  match post_audio_query V text with
  | NoReply => (false, files)
  | Answer status_code body =>
      if negb (status_code =? 200)%nat then (false, files)
      else
        match body with
        | None => (false, files)
        | Some audio_query =>
            match post_synthesis V audio_query with
            | NoReply => (false, files)
            | Answer status_code content =>
                if negb (status_code =? 200)%nat then (false, files)
                else
                  let output_file := output_file_name page_num in
                  match write_file V output_file content with
                  | Written => (true, <[output_file := content]> files)
                  | OpenFailed => (false, files)
                  | WriteFailed remains =>
                      (false, <[output_file := remains]> files)
                  end
            end
        end
  end.

(** The loop of lines 189-198 on [(success_count, files)]. *)
Definition speak_page (st : nat * gmap string Audio) (comment : N * Text)
  : nat * gmap string Audio :=
  match text_to_speech comment.2 comment.1 st.2 with
  | (true, files) => (S st.1, files)
  | (false, files) => (st.1, files)
  end.

(** [MarpToVoice.process_slide] (lines 162-207): the counts that the
    summary prints, [None] when the run stops before the loop, and the
    files of the output directory afterwards. *)
Definition process_slide (content : option Text) (files : gmap string Audio)
  : option (nat * nat) * gmap string Audio :=
  if negb check_voicevox_connection then (None, files)
  else
    let comments := extract_comments_from_slide content in
    match comments with
    | [] => (None, files)
    | _ :: _ =>
        let total_count := length comments in
        let done := foldl speak_page (0%nat, files) comments in
        (Some (done.1, total_count), done.2)
    end.
End Voice.

(** * Properties *)

Example find_matching_files_two_slides :
  find_matching_files "dist" image_extensions audio_extensions
    ["narration02.wav"; "slide01.png"; "notes.txt"; "slide02.png";
     "narration01.wav"]
  = inr [(mkPath "dist" "slide01.png", mkPath "dist" "narration01.wav");
         (mkPath "dist" "slide02.png", mkPath "dist" "narration02.wav")].
Proof. vm_compute. reflexivity. Qed.

(** ** Digit runs *)

Lemma chars_app (s t : string) : chars (s +:+ t) = chars s ++ chars t.
Proof. induction s as [|c s IH]; simpl; [reflexivity | by rewrite IH]. Qed.

Lemma flush_nonempty (cur : list ascii) : cur <> [] -> flush cur = [cur].
Proof. by destruct cur. Qed.

Lemma findall_from_no_digit (cur s : list ascii) :
  no_digit s -> findall_digits_from cur s = flush cur.
Proof.
  intros H. revert cur.
  induction H as [|c s Hc _ IH]; intros cur; simpl; [reflexivity |].
  rewrite Hc, IH. simpl. apply app_nil_r.
Qed.

Lemma findall_from_run (cur run post : list ascii) :
  all_digits run -> no_digit post ->
  findall_digits_from cur (run ++ post) = flush (cur ++ run).
Proof.
  intros Hrun Hpost. revert cur.
  induction Hrun as [|c run Hc _ IH]; intros cur; simpl.
  - rewrite app_nil_r. by apply findall_from_no_digit.
  - rewrite Hc, IH. by rewrite <- app_assoc.
Qed.

Lemma findall_from_split (cur s : list ascii) (c : ascii) (t : list ascii) :
  is_digit c = false ->
  findall_digits_from cur (s ++ c :: t)
  = findall_digits_from cur (s ++ [c]) ++ findall_digits_from [] t.
Proof.
  intros Hc. revert cur.
  induction s as [|a s IH]; intros cur; simpl.
  - rewrite Hc. simpl. by rewrite app_nil_r.
  - destruct (is_digit a); [apply IH |].
    rewrite IH. by rewrite app_assoc.
Qed.




(** The last match of the scan, when the text ends in a run and a tail
    without digits. *)
Lemma findall_digits_last (pre run post : list ascii) :
  run <> [] -> all_digits run -> no_digit post -> not_ending_in_digit pre ->
  last (findall_digits (pre ++ run ++ post)) = Some run.
Proof.
  intros Hne Hrun Hpost Hpre. unfold findall_digits.
  destruct (decide (pre = [])) as [-> | Hnil].
  - simpl. rewrite findall_from_run by done. simpl.
    by rewrite flush_nonempty.
  - destruct (exists_last Hnil) as [pre' [c ->]].
    rewrite <- app_assoc. simpl.
    rewrite findall_from_split by (by eapply Hpre).
    rewrite (findall_from_run [] run post) by done. simpl.
    rewrite flush_nonempty by done. apply last_snoc.
Qed.



(** ** Directory scans as one list *)

Lemma collect_files_scan input_dir entries exts :
  collect_files input_dir entries exts
  = foldl record_file ∅ (scan input_dir entries exts).
Proof.
  unfold collect_files, scan. generalize (∅ : gmap N Path).
  induction exts as [|ext exts IH]; intros files; simpl; [reflexivity |].
  rewrite foldl_app. apply IH.
Qed.






(** ** The index maps *)

Lemma record_files_lookup (files : list Path) (d : gmap N Path) (k : N) :
  foldl record_file d files !! k
  = match last_scanned k files with
    | Some f => Some f
    | None => d !! k
    end.
Proof.
  unfold last_scanned.
  induction files as [|f files IH] using rev_ind; [reflexivity |].
  rewrite foldl_app, filter_app, last_app. cbn [foldl].
  rewrite (filter_cons _ f []), filter_nil.
  unfold record_file at 1.
  destruct (extract_number_from_filename (name f)) as [number|] eqn:Hf.
  - destruct (decide (number = k)) as [-> | Hne].
    + rewrite lookup_insert_eq.
      by rewrite decide_True by reflexivity.
    + rewrite lookup_insert_ne by done.
      rewrite decide_False by congruence. apply IH.
  - rewrite decide_False by discriminate. apply IH.
Qed.

Lemma collect_files_lookup input_dir entries exts (k : N) :
  collect_files input_dir entries exts !! k
  = last_scanned k (scan input_dir entries exts).
Proof.
  rewrite collect_files_scan, record_files_lookup, lookup_empty.
  by destruct (last_scanned _ _).
Qed.

Lemma last_scanned_Some (k : N) (files : list Path) (f : Path) :
  last_scanned k files = Some f ->
  f ∈ files /\ extract_number_from_filename (name f) = Some k.
Proof.
  intros H%last_Some_elem_of. apply list_elem_of_filter in H. tauto.
Qed.

Lemma last_scanned_is_Some (k : N) (files : list Path) :
  is_Some (last_scanned k files) <-> k ∈ page_indices files.
Proof.
  unfold last_scanned, page_indices.
  rewrite last_is_Some, elem_of_list_to_set, list_elem_of_omap. split.
  - intros Hne.
    destruct (filter _ files) as [|f l] eqn:E; [done |].
    assert (Hin : f ∈ filter
      (fun f => extract_number_from_filename (name f) = Some k) files)
      by (rewrite E; left).
    apply list_elem_of_filter in Hin. exists f. tauto.
  - intros (f & Hin & Hf) E.
    assert (Hin' : f ∈ filter
      (fun f => extract_number_from_filename (name f) = Some k) files)
      by (by apply list_elem_of_filter).
    rewrite E in Hin'. by apply not_elem_of_nil in Hin'.
Qed.

Lemma dom_collect_files input_dir entries exts :
  dom (collect_files input_dir entries exts)
  = page_indices (scan input_dir entries exts).
Proof.
  apply set_eq. intros k.
  by rewrite elem_of_dom, collect_files_lookup, last_scanned_is_Some.
Qed.

(** The set of page numbers is the same in every iteration order of the
    extension set. *)
Lemma page_indices_scan_perm input_dir entries (exts exts' : list string) :
  exts ≡ₚ exts' ->
  page_indices (scan input_dir entries exts)
  = page_indices (scan input_dir entries exts').
Proof.
  intros Hp. apply set_eq. intros k. unfold page_indices, scan.
  rewrite !elem_of_list_to_set, !list_elem_of_omap.
  split; intros (f & Hin & Hf); exists f; split; try done;
    apply list_elem_of_In, in_flat_map in Hin as (ext & Hext & Hin);
    apply list_elem_of_In, in_flat_map; exists ext; split; try done;
    apply list_elem_of_In; apply list_elem_of_In in Hext.
  - by rewrite <- Hp.
  - by rewrite Hp.
Qed.

(** ** Sorting the common numbers *)

Lemma strictly_ascending (l : list N) :
  StronglySorted N.le l -> NoDup l -> StronglySorted N.lt l.
Proof.
  induction 1 as [|a l Hs IH Hall]; intros Hnd; [constructor |].
  apply NoDup_cons in Hnd as [Hnotin Hnd].
  constructor; [by apply IH |].
  apply Forall_forall. intros x Hx.
  assert (a <> x) by (intros ->; by apply Hnotin, list_elem_of_In).
  rewrite Forall_forall in Hall. specialize (Hall x Hx). lia.
Qed.

Lemma sorted_perm (s : gset N) : sorted s ≡ₚ elements s.
Proof. apply merge_sort_Permutation. Qed.

Lemma elem_of_sorted (s : gset N) (k : N) : k ∈ sorted s <-> k ∈ s.
Proof. by rewrite sorted_perm, elem_of_elements. Qed.

Lemma length_sorted (s : gset N) : length (sorted s) = size s.
Proof. by rewrite sorted_perm. Qed.

Lemma sorted_ascending (s : gset N) : StronglySorted N.lt (sorted s).
Proof.
  apply strictly_ascending.
  - apply StronglySorted_merge_sort; apply _.
  - rewrite sorted_perm. apply NoDup_elements.
Qed.

(** ** [make_pairs] on keys that both maps hold *)

Lemma make_pairs_ok (image_files audio_files : gmap N Path) (numbers : list N) :
  (forall k, k ∈ numbers ->
     is_Some (image_files !! k) /\ is_Some (audio_files !! k)) ->
  exists pairs,
    make_pairs image_files audio_files numbers = inr pairs
    /\ Forall2 (fun k p => image_files !! k = Some p.1
                           /\ audio_files !! k = Some p.2) numbers pairs.
Proof.
  induction numbers as [|k numbers IH]; intros Hall.
  - exists []. split; [reflexivity | constructor].
  - destruct (Hall k) as [[img Hi] [aud Ha]]; [left |].
    destruct IH as (pairs & Hp & HF).
    { intros k' Hk'. apply Hall. by right. }
    exists ((img, aud) :: pairs). simpl. rewrite Hi, Ha, Hp.
    split; [reflexivity |]. by constructor.
Qed.

(** What [find_matching_files] returns, in terms of the two scans. *)
Lemma find_matching_files_spec input_dir image_order audio_order entries :
  let images := scan input_dir entries image_order in
  let audios := scan input_dir entries audio_order in
  let common := page_indices images ∩ page_indices audios in
  (common = ∅ /\
   find_matching_files input_dir image_order audio_order entries
   = inl (ValueError NoMatchingPairs))
  \/ (common <> ∅ /\ exists pairs,
       find_matching_files input_dir image_order audio_order entries
       = inr pairs
       /\ Forall2 (fun k p => last_scanned k images = Some p.1
                              /\ last_scanned k audios = Some p.2)
            (sorted common) pairs).
Proof.
  intros images audios common. unfold find_matching_files.
  rewrite !dom_collect_files. fold images audios common.
  destruct (decide (common = ∅)) as [He | Hne]; [by left | right].
  split; [done |].
  destruct (make_pairs_ok (collect_files input_dir entries image_order)
              (collect_files input_dir entries audio_order) (sorted common))
    as (pairs & Hp & HF).
  { intros k Hk%elem_of_sorted. rewrite !collect_files_lookup.
    rewrite !last_scanned_is_Some. set_solver. }
  exists pairs. split; [done |].
  eapply Forall2_impl; [exact HF |].
  intros k p. cbv beta. by rewrite !collect_files_lookup.
Qed.

(** ** The matcher *)

Lemma sorted_nonempty (s : gset N) : s <> ∅ -> sorted s <> [].
Proof.
  intros Hne E. apply Hne, leibniz_equiv, size_empty_inv.
  by rewrite <- length_sorted, E.
Qed.

Lemma common_indices input_dir image_order audio_order entries :
  image_order ≡ₚ image_extensions -> audio_order ≡ₚ audio_extensions ->
  page_indices (scan input_dir entries image_order)
    ∩ page_indices (scan input_dir entries audio_order)
  = image_indices input_dir entries ∩ audio_indices input_dir entries.
Proof.
  intros Hi Ha. unfold image_indices, audio_indices.
  by rewrite (page_indices_scan_perm _ _ _ _ Hi),
             (page_indices_scan_perm _ _ _ _ Ha).
Qed.

(** C2.  When the recognised images and the recognised audio files of a
    directory carry the same non-empty set of [n] page numbers,
    [find_matching_files] returns exactly [n] pairs, whatever the order in
    which the extension sets iterate, and the page numbers of the pairs
    (of the image and of the audio file alike) are strictly ascending. *)
Theorem find_matching_files_all_pairs
    input_dir image_order audio_order entries (n : nat) :
  image_order ≡ₚ image_extensions -> audio_order ≡ₚ audio_extensions ->
  image_indices input_dir entries = audio_indices input_dir entries ->
  size (image_indices input_dir entries) = n -> (1 <= n)%nat ->
  exists pairs numbers,
    find_matching_files input_dir image_order audio_order entries = inr pairs
    /\ length pairs = n
    /\ Forall2 (fun k p =>
          extract_number_from_filename (name p.1) = Some k
          /\ extract_number_from_filename (name p.2) = Some k) numbers pairs
    /\ StronglySorted N.lt numbers
    /\ list_to_set numbers = image_indices input_dir entries.
Proof.
  intros Hi Ha Heq Hsize Hn.
  pose proof (common_indices input_dir _ _ entries Hi Ha) as Hc.
  rewrite <- Heq, intersection_idemp_L in Hc.
  destruct (find_matching_files_spec input_dir image_order audio_order entries)
    as [[He _] | (_ & pairs & Hp & HF)]; rewrite Hc in *.
  - rewrite He, size_empty in Hsize. lia.
  - exists pairs, (sorted (image_indices input_dir entries)).
    split; [done |]. split; [| split; [| split]].
    + by rewrite <- (Forall2_length _ _ _ HF), length_sorted.
    + eapply Forall2_impl; [exact HF |].
      intros k p [[_ H1]%last_scanned_Some [_ H2]%last_scanned_Some]. done.
    + apply sorted_ascending.
    + apply set_eq. intros k.
      by rewrite elem_of_list_to_set, elem_of_sorted.
Qed.

Lemma find_matching_files_all_pairs_witness :
  exists pairs numbers,
    find_matching_files "dist"
      [".tiff"; ".jpg"; ".png"; ".bmp"; ".jpeg"]
      [".ogg"; ".wav"; ".m4a"; ".mp3"; ".aac"]
      ["voice12.wav"; "slide03.png"; "slide12.jpg"; "voice03.mp3"]
    = inr pairs
    /\ length pairs = 2%nat
    /\ Forall2 (fun k p =>
          extract_number_from_filename (name p.1) = Some k
          /\ extract_number_from_filename (name p.2) = Some k) numbers pairs
    /\ StronglySorted N.lt numbers
    /\ list_to_set numbers
       = image_indices "dist"
           ["voice12.wav"; "slide03.png"; "slide12.jpg"; "voice03.mp3"].
Proof.
  apply (find_matching_files_all_pairs "dist"
           [".tiff"; ".jpg"; ".png"; ".bmp"; ".jpeg"]
           [".ogg"; ".wav"; ".m4a"; ".mp3"; ".aac"]
           ["voice12.wav"; "slide03.png"; "slide12.jpg"; "voice03.mp3"] 2).
  - apply (bool_decide_unpack _). vm_compute. reflexivity.
  - apply (bool_decide_unpack _). vm_compute. reflexivity.
  - apply (bool_decide_unpack _). vm_compute. reflexivity.
  - vm_compute. reflexivity.
  - lia.
Defined.

(** C3.  In every run, [find_matching_files] raises the [ValueError] of
    line 94 (the spec's NoPairsFoundError) exactly when no page number is
    carried by both a recognised image and a recognised audio file, and
    returns a list of pairs otherwise.  In particular it raises when the
    directory holds no recognised media file, and when the two sets of
    page numbers are non-empty and disjoint. *)
Theorem find_matching_files_error_iff
    input_dir image_order audio_order entries :
  image_order ≡ₚ image_extensions -> audio_order ≡ₚ audio_extensions ->
  let common :=
    image_indices input_dir entries ∩ audio_indices input_dir entries in
  let result :=
    find_matching_files input_dir image_order audio_order entries in
  (result = inl (ValueError NoMatchingPairs) <-> common = ∅)
  /\ (common <> ∅ -> exists pairs, result = inr pairs)
  /\ (scan input_dir entries image_extensions = [] ->
      scan input_dir entries audio_extensions = [] ->
      result = inl (ValueError NoMatchingPairs))
  /\ (image_indices input_dir entries <> ∅ ->
      audio_indices input_dir entries <> ∅ ->
      image_indices input_dir entries ## audio_indices input_dir entries ->
      result = inl (ValueError NoMatchingPairs)).
Proof.
  intros Hi Ha common result.
  pose proof (common_indices input_dir _ _ entries Hi Ha) as Hc.
  fold common in Hc.
  assert (Hiff : result = inl (ValueError NoMatchingPairs) <-> common = ∅).
  { subst result.
    destruct (find_matching_files_spec input_dir image_order audio_order
                entries) as [[He Hr] | (Hne & pairs & Hp & _)];
      rewrite Hc in *.
    - by rewrite Hr.
    - rewrite Hp. split; [discriminate | done]. }
  split; [exact Hiff |]. split; [| split].
  - intros Hne. subst result.
    destruct (find_matching_files_spec input_dir image_order audio_order
                entries) as [[He _] | (_ & pairs & Hp & _)];
      [by rewrite Hc in He | by exists pairs].
  - intros Himg Haud. apply Hiff. subst common.
    unfold image_indices, audio_indices. rewrite Himg, Haud.
    unfold page_indices. simpl. set_solver.
  - intros _ _ Hdisj. apply Hiff. subst common.
    by apply disjoint_intersection_L.
Qed.

Lemma find_matching_files_error_iff_witness :
  find_matching_files "dist"
    [".jpeg"; ".bmp"; ".png"; ".tiff"; ".jpg"]
    [".mp3"; ".ogg"; ".aac"; ".wav"; ".m4a"]
    ["img5.png"; "voice6.wav"; "readme.md"]
  = inl (ValueError NoMatchingPairs).
Proof.
  refine (proj2 (proj1 (find_matching_files_error_iff "dist"
           [".jpeg"; ".bmp"; ".png"; ".tiff"; ".jpg"]
           [".mp3"; ".ogg"; ".aac"; ".wav"; ".m4a"]
           ["img5.png"; "voice6.wav"; "readme.md"] _ _)) _).
  - apply (bool_decide_unpack _). vm_compute. reflexivity.
  - apply (bool_decide_unpack _). vm_compute. reflexivity.
  - apply (bool_decide_unpack _). vm_compute. reflexivity.
Defined.

(** A list returned by the matcher is never empty. *)
Lemma find_matching_files_nonempty
    input_dir image_order audio_order entries pairs :
  find_matching_files input_dir image_order audio_order entries = inr pairs ->
  pairs <> [].
Proof.
  intros Hr.
  destruct (find_matching_files_spec input_dir image_order audio_order entries)
    as [[_ He] | (Hne & pairs' & Hp & HF)]; [congruence |].
  assert (pairs' = pairs) as -> by congruence.
  intros ->. apply Forall2_nil_inv_r in HF. by apply sorted_nonempty in Hne.
Qed.

(** The errors of the matcher: the [ValueError] of line 94, or nothing. *)
Lemma find_matching_files_errors
    input_dir image_order audio_order entries e :
  find_matching_files input_dir image_order audio_order entries = inl e ->
  e = ValueError NoMatchingPairs.
Proof.
  intros Hr.
  destruct (find_matching_files_spec input_dir image_order audio_order entries)
    as [[_ He] | (_ & pairs & Hp & _)]; congruence.
Qed.

(** C9 (as amended).  Which file stands for a page number is decided by the
    scan order of the run, last scanned wins: every returned pair holds, for
    its page number, the image that the image scan visits last and the audio
    file that the audio scan visits last, and the page numbers are the
    common ones in ascending order.  The scan order is the directory listing
    order within the iteration order of the extension set. *)
Theorem find_matching_files_last_scanned_wins
    input_dir image_order audio_order entries pairs :
  image_order ≡ₚ image_extensions -> audio_order ≡ₚ audio_extensions ->
  find_matching_files input_dir image_order audio_order entries = inr pairs ->
  Forall2 (fun k p =>
      last_scanned k (scan input_dir entries image_order) = Some p.1
      /\ last_scanned k (scan input_dir entries audio_order) = Some p.2)
    (sorted (image_indices input_dir entries ∩ audio_indices input_dir entries))
    pairs.
Proof.
  intros Hi Ha Hr.
  rewrite <- (common_indices input_dir _ _ entries Hi Ha).
  destruct (find_matching_files_spec input_dir image_order audio_order entries)
    as [[_ He] | (_ & pairs' & Hp & HF)]; [congruence |].
  by assert (pairs' = pairs) as <- by congruence.
Qed.

Lemma find_matching_files_last_scanned_wins_witness :
  Forall2 (fun k p =>
      last_scanned k (scan "dist" ["slide7.png"; "v2_7.png"; "talk7.wav"]
                        [".png"; ".jpg"; ".jpeg"; ".bmp"; ".tiff"])
      = Some p.1
      /\ last_scanned k (scan "dist" ["slide7.png"; "v2_7.png"; "talk7.wav"]
                           [".wav"; ".mp3"; ".aac"; ".m4a"; ".ogg"])
         = Some p.2)
    (sorted (image_indices "dist" ["slide7.png"; "v2_7.png"; "talk7.wav"]
             ∩ audio_indices "dist" ["slide7.png"; "v2_7.png"; "talk7.wav"]))
    [(mkPath "dist" "v2_7.png", mkPath "dist" "talk7.wav")].
Proof.
  apply (find_matching_files_last_scanned_wins "dist"
           [".png"; ".jpg"; ".jpeg"; ".bmp"; ".tiff"]
           [".wav"; ".mp3"; ".aac"; ".m4a"; ".ogg"]
           ["slide7.png"; "v2_7.png"; "talk7.wav"]).
  - reflexivity.
  - reflexivity.
  - vm_compute. reflexivity.
Defined.

(** C9 (as stated) fails: on one directory listing, two runs in which the
    set of image extensions iterates in two different orders return two
    different pair lists. *)
Lemma find_matching_files_two_runs_differ :
  [".png"; ".jpg"; ".jpeg"; ".bmp"; ".tiff"] ≡ₚ image_extensions
  /\ [".jpg"; ".png"; ".jpeg"; ".bmp"; ".tiff"] ≡ₚ image_extensions
  /\ find_matching_files "dist"
       [".png"; ".jpg"; ".jpeg"; ".bmp"; ".tiff"] audio_extensions
       ["slide7.png"; "v2_7.jpg"; "talk7.wav"]
     = inr [(mkPath "dist" "v2_7.jpg", mkPath "dist" "talk7.wav")]
  /\ find_matching_files "dist"
       [".jpg"; ".png"; ".jpeg"; ".bmp"; ".tiff"] audio_extensions
       ["slide7.png"; "v2_7.jpg"; "talk7.wav"]
     = inr [(mkPath "dist" "slide7.png", mkPath "dist" "talk7.wav")].
Proof.
  split; [reflexivity |]. split; [apply perm_swap |].
  split; vm_compute; reflexivity.
Qed.

(** ** The timeline *)

Lemma run_clips_app (cs cs' : list Clip) (fr : Frame) :
  run_clips (cs ++ cs') fr = run_clips cs' (run_clips cs fr).
Proof.
  unfold run_clips. simpl. by rewrite !foldl_app, app_assoc.
Qed.

Lemma run_clips_nil (fr : Frame) : run_clips [] fr = fr.
Proof. destruct fr. unfold run_clips. simpl. by rewrite app_nil_r. Qed.

Section Timeline.
Variable B : Backend.
Variable resolution : option Resolution.
Variables pause_before pause_after : Q.

Hypothesis resize_succeeds :
  forall r, resolution = Some r -> resize_ok B r = true.

Lemma resize_if_ok (c : Clip) (fr : Frame) :
  clip_size c = None ->
  resize_if B resolution c fr
  = (fr, inr (mkClip (clip_image c) (clip_duration c) (clip_audio c)
                resolution)).
Proof using resize_succeeds.
  intros Hc. unfold resize_if, resized. destruct resolution as [r|].
  - by rewrite resize_succeeds.
  - destruct c; simpl in *. by subst.
Qed.

Lemma add_pause_ok (image_file : Path) (pause : Q) (fr : Frame) :
  image_loads B image_file = true ->
  add_pause B resolution image_file pause fr
  = (run_clips [pause_clip resolution image_file pause] fr, inr tt).
Proof using resize_succeeds.
  intros Himg. unfold add_pause, bind, ImageClip. rewrite Himg.
  unfold bind. simpl. rewrite resize_if_ok by done. reflexivity.
Qed.

Lemma create_slide_clip_ok (image_file audio_file : Path) (d : Q) (fr : Frame) :
  served B (image_file, audio_file) d ->
  create_slide_clip B image_file audio_file fr
  = (mkFrame (ImageFrame image_file d :: AudioReader audio_file :: opened fr)
       (clips fr) (total_duration fr) (final_video fr),
     inr (mkClip image_file d (Some (mkAudioClip audio_file d)) None)).
Proof.
  intros [Himg Haud]. simpl in *.
  unfold create_slide_clip, bind, AudioFileClip, ImageClip.
  rewrite Haud, Himg. reflexivity.
Qed.

Lemma loop_body_ok (n i : nat) (image_file audio_file : Path) (d : Q)
    (fr : Frame) :
  served B (image_file, audio_file) d ->
  loop_body B resolution pause_before pause_after n i image_file audio_file fr
  = (run_clips
      (segments resolution pause_before pause_after n i image_file
         audio_file d) fr, inr tt).
Proof using resize_succeeds.
  intros Hs. pose proof Hs as [Himg _]. simpl in Himg.
  unfold segments. rewrite !run_clips_app.
  unfold loop_body, bind at 1.
  assert (Hb : forall fr0,
    (if (0 <? i)%nat && is_positive pause_before
     then add_pause B resolution image_file pause_before
     else ret tt) fr0
    = (run_clips (pause_before_of resolution pause_before i image_file) fr0,
       inr tt)).
  { intros fr0. unfold pause_before_of.
    destruct ((0 <? i)%nat && is_positive pause_before).
    - by apply add_pause_ok.
    - by rewrite run_clips_nil. }
  assert (Ha : forall fr0,
    (if (i <? n - 1)%nat && is_positive pause_after
     then add_pause B resolution image_file pause_after
     else ret tt) fr0
    = (run_clips (pause_after_of resolution pause_after n i image_file) fr0,
       inr tt)).
  { intros fr0. unfold pause_after_of.
    destruct ((i <? n - 1)%nat && is_positive pause_after).
    - by apply add_pause_ok.
    - by rewrite run_clips_nil. }
  rewrite Hb. unfold bind at 1.
  rewrite (create_slide_clip_ok _ _ d) by done.
  unfold bind at 1. rewrite resize_if_ok by done.
  unfold bind, append_clip, add_duration. simpl.
  rewrite Ha. reflexivity.
Qed.

Lemma timeline_loop_ok (n : nat) (slide_pairs : list (Path * Path))
    (durations : list Q) :
  Forall2 (served B) slide_pairs durations ->
  forall i fr,
    timeline_loop B resolution pause_before pause_after n i slide_pairs fr
    = (run_clips
       (timeline resolution pause_before pause_after n i slide_pairs
          durations) fr, inr tt).
Proof using resize_succeeds.
  induction 1 as [|[image_file audio_file] d rest ds Hs _ IH]; intros i fr.
  - simpl. by rewrite run_clips_nil.
  - simpl. unfold bind. rewrite (loop_body_ok _ _ _ _ d) by done.
    by rewrite IH, run_clips_app.
Qed.
End Timeline.

(** ** The running total *)


Lemma times_0 (q : Q) : (times 0 q == 0)%Q.
Proof. unfold times. simpl. ring. Qed.

Lemma times_S (k : nat) (q : Q) : (times (S k) q == q + times k q)%Q.
Proof.
  unfold times. rewrite Nat2Z.inj_succ, <- Z.add_1_r, inject_Z_plus. ring.
Qed.

Global Instance times_proper (k : nat) : Proper (Qeq ==> Qeq) (times k).
Proof. intros q q' H. unfold times. by rewrite H. Qed.

Lemma sum_durations_cons (d : Q) (ds : list Q) :
  sum_durations (d :: ds) = (d + sum_durations ds)%Q.
Proof. reflexivity. Qed.

Lemma sum_durations_nil : sum_durations [] = 0%Q.
Proof. reflexivity. Qed.

Lemma total_fold (cs : list Clip) (t : Q) :
  (foldl (fun t c => t + clip_duration c) t cs
   == t + sum_durations (clip_duration <$> cs))%Q.
Proof.
  revert t. induction cs as [|c cs IH]; intros t.
  - cbn [foldl fmap list_fmap]. rewrite sum_durations_nil. ring.
  - cbn [foldl]. rewrite fmap_cons, sum_durations_cons, IH. ring.
Qed.

Lemma sum_durations_app (ds ds' : list Q) :
  (sum_durations (ds ++ ds') == sum_durations ds + sum_durations ds')%Q.
Proof.
  induction ds as [|d ds IH].
  - rewrite app_nil_l, sum_durations_nil. ring.
  - rewrite <- app_comm_cons, !sum_durations_cons, IH. ring.
Qed.

Section Total.
Variable resolution : option Resolution.
Variables pause_before pause_after : Q.

Lemma segments_sum (n i : nat) (image_file audio_file : Path) (d : Q) :
  (sum_durations
     (clip_duration <$>
        segments resolution pause_before pause_after n i image_file
          audio_file d)
   == (if (0 <? i)%nat then effective pause_before else 0)
      + d
      + (if (i <? n - 1)%nat then effective pause_after else 0))%Q.
Proof.
  unfold segments, pause_before_of, pause_after_of, effective.
  destruct (0 <? i)%nat, (i <? n - 1)%nat,
    (is_positive pause_before), (is_positive pause_after);
    cbn [andb app fmap list_fmap clip_duration pause_clip slide_clip];
    rewrite ?sum_durations_cons, ?sum_durations_nil; ring.
Qed.

(** The pauses before all slides but the very first, the pauses after all
    slides but the very last. *)
Lemma timeline_sum (slide_pairs : list (Path * Path)) (durations : list Q) :
  length slide_pairs = length durations ->
  forall n i, n = (i + length slide_pairs)%nat ->
  (sum_durations
     (clip_duration <$>
        timeline resolution pause_before pause_after n i slide_pairs
          durations)
   == sum_durations durations
      + times (if (i =? 0)%nat then length slide_pairs - 1
               else length slide_pairs) (effective pause_before)
      + times (length slide_pairs - 1) (effective pause_after))%Q.
Proof.
  revert durations.
  induction slide_pairs as [|[image_file audio_file] rest IH];
    intros [|d ds] Hlen n i Hn; simpl in Hlen; try discriminate.
  - cbn [timeline length fmap list_fmap]. rewrite sum_durations_nil.
    destruct (i =? 0)%nat; rewrite !times_0; ring.
  - injection Hlen as Hlen. cbn [timeline].
    rewrite fmap_app, sum_durations_app, segments_sum.
    assert (Hn' : n = (S i + length rest)%nat) by (simpl in Hn; lia).
    pose proof (IH ds Hlen n (S i) Hn') as IH'. rewrite IH'.
    cbn [length]. rewrite sum_durations_cons.
    replace (S (length rest) - 1)%nat with (length rest) by lia.
    replace (i <? n - 1)%nat with (0 <? length rest)%nat
      by (apply eq_true_iff_eq; rewrite !Nat.ltb_lt; lia).
    destruct i as [|i]; cbn [Nat.ltb Nat.leb Nat.eqb];
      destruct (length rest) as [|m]; cbn [Nat.ltb Nat.leb];
      cbn [Nat.sub]; rewrite ?Nat.sub_0_r, ?times_S, ?times_0; ring.
Qed.
End Total.

(** ** The ends of the timeline *)

Section Ends.
Variable resolution : option Resolution.
Variables pause_before pause_after : Q.


End Ends.


(** C5.  With exactly one pair, whatever the two pause values, the loop
    ends normally with one clip, the narrated slide, and the total is the
    length of its audio. *)
Theorem single_pair_no_pause
    B resolution pause_before pause_after image_file audio_file d
    already_open :
  (forall r, resolution = Some r -> resize_ok B r = true) ->
  served B (image_file, audio_file) d ->
  exists fr,
    timeline_loop B resolution pause_before pause_after 1 0
      [(image_file, audio_file)] (start already_open) = (fr, inr tt)
    /\ clips fr = [slide_clip resolution image_file audio_file d]
    /\ (total_duration fr == d)%Q.
Proof.
  intros Hres Hs. eexists. split.
  - apply (timeline_loop_ok B resolution pause_before pause_after Hres 1
             [(image_file, audio_file)] [d]).
    constructor; [exact Hs | constructor].
  - split; [reflexivity |]. simpl. ring.
Qed.




(** ** A run to try things on *)


Lemma single_pair_no_pause_witness :
  exists fr,
    timeline_loop studio (Some (1920, 1080)%Z) (3 # 4) (3 # 4) 1 0
      [(mkPath "dist" "slide01.png", mkPath "dist" "voice01.wav")]
      (start []) = (fr, inr tt)
    /\ clips fr
       = [slide_clip (Some (1920, 1080)%Z) (mkPath "dist" "slide01.png")
            (mkPath "dist" "voice01.wav") 3]
    /\ (total_duration fr == 3)%Q.
Proof.
  apply (single_pair_no_pause studio (Some (1920, 1080)%Z) (3 # 4) (3 # 4)).
  - reflexivity.
  - split; reflexivity.
Defined.


(** ** Which exceptions [generate_video] can raise *)

Lemma beo_ret {A} (x : A) : backend_errors_only (ret x).
Proof. intros fr fr' e H. discriminate. Qed.

Lemma beo_raise {A} (op : Operation) :
  backend_errors_only (@raise A (BackendError op)).
Proof. intros fr fr' e [= _ <-]. by exists op. Qed.

Lemma beo_bind {A C} (c : M A) (k : A -> M C) :
  backend_errors_only c -> (forall x, backend_errors_only (k x)) ->
  backend_errors_only (bind c k).
Proof.
  intros Hc Hk fr fr' e. unfold bind.
  destruct (c fr) as [fr1 [e1 | x]] eqn:E.
  - intros [= _ <-]. by eapply Hc.
  - apply Hk.
Qed.

Lemma beo_try_finally {A} (body : M A) (cleanup : M unit) :
  backend_errors_only body -> backend_errors_only cleanup ->
  backend_errors_only (try_finally body cleanup).
Proof.
  intros Hb Hc fr fr' e. unfold try_finally.
  destruct (body fr) as [fr1 outcome] eqn:E.
  destruct (cleanup fr1) as [fr2 [e2 | []]] eqn:E2.
  - intros [= _ <-]. by eapply Hc.
  - intros [= _ ->]. by eapply Hb.
Qed.

Lemma beo_acquire r : backend_errors_only (acquire r).
Proof. intros fr fr' e H. discriminate. Qed.
Lemma beo_release r : backend_errors_only (release r).
Proof. intros fr fr' e H. discriminate. Qed.
Lemma beo_append_clip c : backend_errors_only (append_clip c).
Proof. intros fr fr' e H. discriminate. Qed.
Lemma beo_add_duration d : backend_errors_only (add_duration d).
Proof. intros fr fr' e H. discriminate. Qed.
Lemma beo_set_final_video v : backend_errors_only (set_final_video v).
Proof. intros fr fr' e H. discriminate. Qed.
Lemma beo_get_frame : backend_errors_only get_frame.
Proof. intros fr fr' e H. discriminate. Qed.

Ltac beo_step :=
  first
    [ apply beo_ret | apply beo_raise | apply beo_acquire | apply beo_release
    | apply beo_append_clip | apply beo_add_duration
    | apply beo_set_final_video | apply beo_get_frame
    | apply beo_bind; [| intros ?]
    | match goal with
      | |- backend_errors_only (if ?b then _ else _) => destruct b
      | |- backend_errors_only (match ?x with _ => _ end) => destruct x
      end ].
Ltac beo := repeat beo_step.

Section Errors.
Variable B : Backend.
Variable resolution : option Resolution.
Variables pause_before pause_after : Q.

Lemma beo_resize_if c : backend_errors_only (resize_if B resolution c).
Proof. unfold resize_if, resized. beo. Qed.

Lemma beo_add_pause image_file pause :
  backend_errors_only (add_pause B resolution image_file pause).
Proof. unfold add_pause, ImageClip. beo; apply beo_resize_if. Qed.

Lemma beo_create_slide_clip image_file audio_file :
  backend_errors_only (create_slide_clip B image_file audio_file).
Proof. unfold create_slide_clip, AudioFileClip, ImageClip. beo. Qed.

Lemma beo_loop_body n i image_file audio_file :
  backend_errors_only
    (loop_body B resolution pause_before pause_after n i image_file
       audio_file).
Proof.
  unfold loop_body.
  repeat first [ apply beo_add_pause | apply beo_create_slide_clip
               | apply beo_resize_if | beo_step ].
Qed.

Lemma beo_timeline_loop n slide_pairs : forall i,
  backend_errors_only
    (timeline_loop B resolution pause_before pause_after n i slide_pairs).
Proof.
  induction slide_pairs as [|[image_file audio_file] rest IH]; intros i;
    simpl.
  - apply beo_ret.
  - apply beo_bind; [apply beo_loop_body | intros _; apply IH].
Qed.

Lemma beo_close_all cs : backend_errors_only (close_all cs).
Proof.
  induction cs as [|c cs IH]; simpl.
  - apply beo_ret.
  - apply beo_bind; [unfold close; beo | intros _; exact IH].
Qed.

Lemma beo_render output_path pair rest :
  backend_errors_only
    (render B resolution pause_before pause_after output_path (pair :: rest)).
Proof.
  unfold render. apply beo_try_finally.
  - apply beo_bind; [apply beo_timeline_loop | intros _].
    unfold encode. beo.
  - unfold cleanup. repeat first [apply beo_close_all | beo_step].
Qed.
End Errors.

(** C8.  Given no pair, the part of [generate_video] that builds the
    timeline raises the [ValueError] of line 174 (the spec's
    EmptyTimelineError) and leaves the frame as it was: nothing is opened
    and no clip is made.  It is the only input on which that error is
    raised. *)
Theorem render_rejects_no_pairs
    B resolution pause_before pause_after output_path fr :
  render B resolution pause_before pause_after output_path [] fr
  = (fr, inl (ValueError NoProcessablePairs))
  /\ (forall slide_pairs fr',
        render B resolution pause_before pause_after output_path slide_pairs fr
        = (fr', inl (ValueError NoProcessablePairs)) ->
        slide_pairs = []).
Proof.
  split; [reflexivity |].
  intros [|pair rest] fr' Hr; [reflexivity |].
  apply beo_render in Hr as [op Hop]. discriminate.
Qed.

Lemma render_rejects_no_pairs_witness :
  render studio None (3 # 4) (3 # 4) "presentation.mp4" [] (start [])
  = (start [], inl (ValueError NoProcessablePairs))
  /\ ([] : list (Path * Path)) = [].
Proof.
  split.
  - apply (render_rejects_no_pairs studio None (3 # 4) (3 # 4)).
  - apply (proj2 (render_rejects_no_pairs studio None (3 # 4) (3 # 4)
                    "presentation.mp4" (start [])) [] (start [])).
    reflexivity.
Defined.

(** C10.  The guard of lines 173-174 never fires inside [generate_video]:
    a list that [find_matching_files] returns holds at least one pair, and
    no run of [generate_video] ends in the [ValueError] of line 174. *)
Theorem empty_guard_unreachable :
  (forall input_dir image_order audio_order entries pairs,
      find_matching_files input_dir image_order audio_order entries
      = inr pairs ->
      pairs <> [])
  /\ (forall B resolution pause_before pause_after input_dir image_order
        audio_order entries output_path fr,
      (generate_video B resolution pause_before pause_after input_dir
         image_order audio_order entries output_path fr).2
      <> inl (ValueError NoProcessablePairs)).
Proof.
  split.
  - intros *. apply find_matching_files_nonempty.
  - intros *. unfold generate_video.
    destruct (find_matching_files input_dir image_order audio_order entries)
      as [e | pairs] eqn:E.
    + apply find_matching_files_errors in E as ->. discriminate.
    + apply find_matching_files_nonempty in E.
      destruct pairs as [|pair rest]; [done |].
      destruct (render B resolution pause_before pause_after output_path
                  (pair :: rest) fr) as [fr' [e | out]] eqn:Er;
        [| discriminate].
      apply beo_render in Er as [op ->]. discriminate.
Qed.

Lemma empty_guard_unreachable_witness :
  [(mkPath "dist" "slide01.png", mkPath "dist" "voice01.wav")] <> [].
Proof.
  apply (proj1 empty_guard_unreachable "dist" image_extensions
           audio_extensions ["slide01.png"; "voice01.wav"]).
  vm_compute. reflexivity.
Defined.

(** ** The cleanup *)

(** A run in which everything succeeds closes all it opened. *)
Example generate_video_clean_run :
  generate_video studio (Some (1920, 1080)%Z) (1 # 2) (1 # 2) "dist"
    image_extensions audio_extensions
    ["slide01.png"; "voice01.wav"; "slide02.png"; "voice02.wav"]
    "presentation.mp4" (start [])
  = (mkFrame []
       (timeline (Some (1920, 1080)%Z) (1 # 2) (1 # 2) 2 0
          [(mkPath "dist" "slide01.png", mkPath "dist" "voice01.wav");
           (mkPath "dist" "slide02.png", mkPath "dist" "voice02.wav")]
          [3%Q; 2%Q])
       (0 + 3 + (1 # 2) + (1 # 2) + 2)%Q
       (Some
          (timeline (Some (1920, 1080)%Z) (1 # 2) (1 # 2) 2 0
             [(mkPath "dist" "slide01.png", mkPath "dist" "voice01.wav");
              (mkPath "dist" "slide02.png", mkPath "dist" "voice02.wav")]
             [3%Q; 2%Q])),
     inr "presentation.mp4"%string).
Proof. vm_compute. reflexivity. Qed.

(** *** When every clip can be built *)

Lemma release_one_elem (r : Resource) (l : list Resource) :
  r ∈ l -> l ≡ₚ r :: release_one r l.
Proof.
  induction l as [|r' l IH]; [by intros ?%not_elem_of_nil |].
  intros Hin. simpl. destruct (decide (r = r')) as [-> | Hne]; [done |].
  apply elem_of_cons in Hin as [? | Hin]; [done |].
  rewrite (IH Hin) at 1. apply perm_swap.
Qed.

Lemma release_one_app (r : Resource) (l o : list Resource) :
  r ∈ l -> release_one r (l ++ o) = release_one r l ++ o.
Proof.
  induction l as [|r' l IH]; [by intros ?%not_elem_of_nil |].
  intros Hin. simpl. destruct (decide (r = r')) as [-> | Hne]; [done |].
  apply elem_of_cons in Hin as [? | Hin]; [done |].
  by rewrite (IH Hin).
Qed.

(** Releasing [r] from the resources of the call, which hold it. *)
Lemma release_front (r : Resource) (front rest o : list Resource) :
  front ≡ₚ r :: rest ->
  exists front', release_one r (front ++ o) = front' ++ o /\ front' ≡ₚ rest.
Proof.
  intros Hp.
  assert (Hin : r ∈ front) by (rewrite Hp; left).
  exists (release_one r front). split; [by apply release_one_app |].
  apply (Permutation_cons_inv (a := r)).
  by rewrite <- release_one_elem.
Qed.

Lemma close_all_releases (cs : list Clip) :
  forall front o cl total fv,
    front ≡ₚ flat_map clip_resources cs ->
    close_all cs (mkFrame (front ++ o) cl total fv)
    = (mkFrame o cl total fv, inr tt).
Proof.
  induction cs as [|c cs IH]; intros front o cl total fv Hp; simpl in *.
  - apply Permutation_nil_r in Hp as ->. reflexivity.
  - unfold bind at 1. unfold close, bind at 1. unfold release at 1. simpl.
    unfold clip_resources in Hp. simpl in Hp.
    destruct (release_front _ _ _ o Hp) as (front1 & -> & Hp1).
    destruct (clip_audio c) as [a|]; simpl in *.
    + destruct (release_front _ _ _ o Hp1) as (front2 & -> & Hp2).
      by apply IH.
    + by apply IH.
Qed.

Lemma opened_run_clips (cs : list Clip) (o : list Resource) :
  exists front,
    foldl (fun o c => clip_resources c ++ o) o cs = front ++ o
    /\ front ≡ₚ flat_map clip_resources cs.
Proof.
  revert o. induction cs as [|c cs IH]; intros o; cbn [foldl flat_map].
  - by exists [].
  - destruct (IH (clip_resources c ++ o)) as (front & -> & Hp).
    exists (front ++ clip_resources c). split; [by rewrite <- app_assoc |].
    rewrite Hp. apply Permutation_app_comm.
Qed.

(** When the backend serves every pair, [generate_video] closes all it
    opened before it returns or raises, whether the concatenation and the
    encoding succeed or fail. *)
Lemma render_closes_all_when_served
    B resolution pause_before pause_after output_path slide_pairs durations
    already_open :
  (forall r, resolution = Some r -> resize_ok B r = true) ->
  Forall2 (served B) slide_pairs durations ->
  opened (render B resolution pause_before pause_after output_path
            slide_pairs (start already_open)).1
  = already_open.
Proof.
  intros Hres Hserved.
  destruct slide_pairs as [|pair rest]; [reflexivity |].
  unfold render, try_finally, bind at 1.
  rewrite (timeline_loop_ok B resolution pause_before pause_after Hres _ _
             durations Hserved).
  unfold run_clips. cbn [start opened clips total_duration final_video app].
  destruct (opened_run_clips
              (timeline resolution pause_before pause_after
                 (length (pair :: rest)) 0 (pair :: rest) durations)
              already_open) as (front & -> & Hp).
  unfold encode, bind, get_frame, cleanup.
  destruct (concatenate_ok B), (write_ok B); simpl;
    unfold bind, get_frame; simpl;
    rewrite ?decide_True by done;
    by rewrite (close_all_releases _ front already_open _ _ _ Hp).
Qed.

(** C7 fails on the code.  [create_slide_clip] opens the audio file (line
    130); when [ImageClip] then raises (line 137) the reader is referenced
    by no element of [clips], so the [finally] block closes nothing and
    [generate_video] propagates the error with the reader still open. *)
Theorem generate_video_leaves_audio_open :
  generate_video unreadable_image None (3 # 4) (3 # 4) "dist"
    image_extensions audio_extensions ["slide1.png"; "voice1.wav"]
    "presentation.mp4" (start [])
  = (mkFrame [AudioReader (mkPath "dist" "voice1.wav")] [] 0%Q None,
     inl (BackendError (OpImageClip (mkPath "dist" "slide1.png")))).
Proof. vm_compute. reflexivity. Qed.


(** * Further properties *)

(** ** Of the matcher *)

(** The page numbers of the pairs of a result. *)
Lemma find_matching_files_numbers
    input_dir image_order audio_order entries pairs :
  image_order ≡ₚ image_extensions -> audio_order ≡ₚ audio_extensions ->
  find_matching_files input_dir image_order audio_order entries = inr pairs ->
  Forall2 (fun k p =>
      extract_number_from_filename (name p.1) = Some k
      /\ extract_number_from_filename (name p.2) = Some k)
    (sorted (image_indices input_dir entries ∩ audio_indices input_dir entries))
    pairs.
Proof.
  intros Hi Ha Hr.
  pose proof (common_indices input_dir _ _ entries Hi Ha) as Hc.
  destruct (find_matching_files_spec input_dir image_order audio_order entries)
    as [[_ He] | (_ & pairs' & Hp & HF)]; [congruence |].
  assert (pairs' = pairs) as -> by congruence. rewrite Hc in HF.
  eapply Forall2_impl; [exact HF |].
  intros k p [[_ H1]%last_scanned_Some [_ H2]%last_scanned_Some]. done.
Qed.

(** X1.  In every directory and every run, the list that
    [find_matching_files] returns has one pair per page number common to
    the recognised images and the recognised audio files, in strictly
    ascending order of page number, and both files of a pair carry that
    number; numbers that only one kind carries leave gaps. *)
Theorem find_matching_files_shape
    input_dir image_order audio_order entries pairs :
  image_order ≡ₚ image_extensions -> audio_order ≡ₚ audio_extensions ->
  find_matching_files input_dir image_order audio_order entries = inr pairs ->
  let common :=
    image_indices input_dir entries ∩ audio_indices input_dir entries in
  exists numbers,
    length pairs = size common
    /\ Forall2 (fun k p =>
          extract_number_from_filename (name p.1) = Some k
          /\ extract_number_from_filename (name p.2) = Some k) numbers pairs
    /\ StronglySorted N.lt numbers
    /\ list_to_set numbers = common.
Proof.
  intros Hi Ha Hr common.
  pose proof (find_matching_files_numbers _ _ _ _ _ Hi Ha Hr) as HF.
  fold common in HF.
  exists (sorted common). split; [| split; [| split]].
  - by rewrite <- (Forall2_length _ _ _ HF), length_sorted.
  - exact HF.
  - apply sorted_ascending.
  - apply set_eq. intros k. by rewrite elem_of_list_to_set, elem_of_sorted.
Qed.

Lemma find_matching_files_shape_witness :
  exists numbers,
    length [(mkPath "dist" "s3.png", mkPath "dist" "v3.wav");
            (mkPath "dist" "s8.jpg", mkPath "dist" "v8.ogg")]
    = size (image_indices "dist"
              ["v8.ogg"; "s3.png"; "s5.png"; "s8.jpg"; "v3.wav"; "v9.aac"]
            ∩ audio_indices "dist"
                ["v8.ogg"; "s3.png"; "s5.png"; "s8.jpg"; "v3.wav"; "v9.aac"])
    /\ Forall2 (fun k p =>
          extract_number_from_filename (name p.1) = Some k
          /\ extract_number_from_filename (name p.2) = Some k) numbers
          [(mkPath "dist" "s3.png", mkPath "dist" "v3.wav");
           (mkPath "dist" "s8.jpg", mkPath "dist" "v8.ogg")]
    /\ StronglySorted N.lt numbers
    /\ list_to_set numbers
       = image_indices "dist"
           ["v8.ogg"; "s3.png"; "s5.png"; "s8.jpg"; "v3.wav"; "v9.aac"]
         ∩ audio_indices "dist"
             ["v8.ogg"; "s3.png"; "s5.png"; "s8.jpg"; "v3.wav"; "v9.aac"].
Proof.
  apply (find_matching_files_shape "dist" image_extensions audio_extensions
           ["v8.ogg"; "s3.png"; "s5.png"; "s8.jpg"; "v3.wav"; "v9.aac"]).
  - reflexivity.
  - reflexivity.
  - vm_compute. reflexivity.
Defined.

Lemma elem_of_scan input_dir entries exts (f : Path) :
  f ∈ scan input_dir entries exts <->
  parent f = input_dir /\ name f ∈ entries
  /\ exists ext, ext ∈ exts /\ glob_matches ext (name f) = true.
Proof.
  unfold scan, glob. rewrite list_elem_of_In, in_flat_map. split.
  - intros (ext & Hext%list_elem_of_In & Hf%list_elem_of_In).
    apply list_elem_of_fmap in Hf as (e & -> & He).
    apply list_elem_of_filter in He as [Hm He]. simpl. eauto.
  - intros (Hp & He & ext & Hext & Hm). exists ext.
    split; [by apply list_elem_of_In |].
    apply list_elem_of_In, list_elem_of_fmap. exists (name f).
    split; [destruct f; simpl in *; by subst |].
    by apply list_elem_of_filter.
Qed.

(** X2.  Every pair that [find_matching_files] returns is made of files of
    the directory: the image is an entry that one of the image patterns
    matches, the audio file an entry that one of the audio patterns
    matches, and both paths lie in [input_dir]. *)
Theorem find_matching_files_pairs_from_directory
    input_dir image_order audio_order entries pairs img aud :
  image_order ≡ₚ image_extensions -> audio_order ≡ₚ audio_extensions ->
  find_matching_files input_dir image_order audio_order entries = inr pairs ->
  (img, aud) ∈ pairs ->
  (parent img = input_dir /\ name img ∈ entries
   /\ exists ext, ext ∈ image_extensions
                  /\ glob_matches ext (name img) = true)
  /\ (parent aud = input_dir /\ name aud ∈ entries
      /\ exists ext, ext ∈ audio_extensions
                     /\ glob_matches ext (name aud) = true).
Proof.
  intros Hi Ha Hr Hin.
  destruct (find_matching_files_spec input_dir image_order audio_order entries)
    as [[_ He] | (_ & pairs' & Hp & HF)]; [congruence |].
  assert (pairs' = pairs) as -> by congruence.
  apply list_elem_of_lookup in Hin as [j Hj].
  destruct (Forall2_lookup_r _ _ _ _ _ HF Hj) as (k & _ & H1 & H2).
  simpl in H1, H2.
  apply last_scanned_Some in H1 as [H1 _].
  apply last_scanned_Some in H2 as [H2 _].
  apply elem_of_scan in H1 as (? & ? & ext1 & Hext1 & ?).
  apply elem_of_scan in H2 as (? & ? & ext2 & Hext2 & ?).
  rewrite Hi in Hext1. rewrite Ha in Hext2. eauto 10.
Qed.

Lemma find_matching_files_pairs_from_directory_witness :
  (parent (mkPath "dist" "s3.png") = "dist"%string
   /\ name (mkPath "dist" "s3.png") ∈ ["v3.wav"; "s3.png"; "notes.txt"]
   /\ exists ext, ext ∈ image_extensions
                  /\ glob_matches ext (name (mkPath "dist" "s3.png")) = true)
  /\ (parent (mkPath "dist" "v3.wav") = "dist"%string
      /\ name (mkPath "dist" "v3.wav") ∈ ["v3.wav"; "s3.png"; "notes.txt"]
      /\ exists ext, ext ∈ audio_extensions
                     /\ glob_matches ext (name (mkPath "dist" "v3.wav"))
                        = true).
Proof.
  apply (find_matching_files_pairs_from_directory "dist" image_extensions
           audio_extensions ["v3.wav"; "s3.png"; "notes.txt"]
           [(mkPath "dist" "s3.png", mkPath "dist" "v3.wav")]).
  - reflexivity.
  - reflexivity.
  - vm_compute. reflexivity.
  - left.
Defined.

(** ** Digits in the extension *)

Lemma extract_number_suffix_digit (pre : string) (d : ascii) :
  is_digit d = true -> not_ending_in_digit (chars pre) ->
  extract_number_from_filename (pre +:+ String d "")
  = Some (digit_value d).
Proof.
  intros Hd Hpre. unfold extract_number_from_filename.
  rewrite chars_app.
  replace (chars (String d "")) with ([d] ++ []) by reflexivity.
  rewrite findall_digits_last;
    [| done | by constructor | constructor | done].
  unfold int_of_digits. cbn [foldl]. by rewrite N.mul_0_r, N.add_0_l.
Qed.

Lemma not_ending_in_digit_snoc (s : string) (c : ascii) :
  is_digit c = false -> not_ending_in_digit (chars (s +:+ String c "")).
Proof.
  intros Hc pre' c' H. rewrite chars_app in H. simpl in H.
  apply app_inj_tail in H as [_ <-]. done.
Qed.

Lemma string_app_assoc (s t u : string) :
  ((s +:+ t) +:+ u = s +:+ (t +:+ u))%string.
Proof.
  induction s as [|c s IH]; [reflexivity |].
  change (String c ((s +:+ t) +:+ u) = String c (s +:+ (t +:+ u))).
  by rewrite IH.
Qed.

(** The last digit run of such names lies in the extension. *)
Lemma extract_number_mp3 (base : string) :
  extract_number_from_filename (base +:+ ".mp3") = Some 3%N.
Proof.
  change (base +:+ ".mp3")%string with (base +:+ (".mp" +:+ "3"))%string.
  rewrite <- string_app_assoc.
  rewrite extract_number_suffix_digit; [done | done |].
  change (base +:+ ".mp")%string with (base +:+ (".m" +:+ "p"))%string.
  rewrite <- string_app_assoc. by apply not_ending_in_digit_snoc.
Qed.

Lemma extract_number_m4a (base : string) :
  extract_number_from_filename (base +:+ ".m4a") = Some 4%N.
Proof.
  unfold extract_number_from_filename.
  change (base +:+ ".m4a")%string
    with (base +:+ (".m" +:+ ("4" +:+ "a")))%string.
  rewrite <- string_app_assoc, !chars_app.
  rewrite findall_digits_last; [done | discriminate | | |].
  - by repeat constructor.
  - by repeat constructor.
  - rewrite <- chars_app.
    change (base +:+ ".m")%string with (base +:+ ("." +:+ "m"))%string.
    rewrite <- string_app_assoc. by apply not_ending_in_digit_snoc.
Qed.

(** X3.  The digit of the extension counts: a name that ends in [.mp3]
    always gets page number 3 and a name that ends in [.m4a] page number 4,
    whatever precedes the extension. *)
Theorem extension_digit_is_the_index (base : string) :
  extract_number_from_filename (base +:+ ".mp3") = Some 3%N
  /\ extract_number_from_filename (base +:+ ".m4a") = Some 4%N.
Proof.
  split.
  - apply extract_number_mp3.
  - apply extract_number_m4a.
Qed.

Lemma suffix_chars_true (suf s : list ascii) (n : nat) :
  suffix_chars suf s n = true -> exists pre, s = pre ++ suf.
Proof.
  revert s. induction n as [|n IH]; intros s.
  - destruct s; simpl; intros ->%bool_decide_eq_true; by exists [].
  - destruct s as [|c s]; simpl; [discriminate |].
    intros [pre ->]%IH. by exists (c :: pre).
Qed.

(** A name that the pattern of [ext] matches ends in [ext]. *)
Lemma glob_matches_suffix (ext entry : string) :
  glob_matches ext entry = true ->
  exists base : string, entry = (base +:+ ext)%string.
Proof.
  unfold glob_matches. intros [_ H]%andb_true_iff.
  apply suffix_chars_true in H as [pre H].
  exists (String.string_of_list_ascii pre).
  rewrite <- (String.string_of_list_ascii_of_string entry), H.
  rewrite <- (String.string_of_list_ascii_of_string
                (String.string_of_list_ascii pre +:+ ext)).
  by rewrite chars_app, String.list_ascii_of_string_of_list_ascii.
Qed.

(** X4.  Narration in MP3 cannot give more than one slide: when every
    audio file of the directory is an [.mp3] file, [find_matching_files]
    returns at most one pair, for page number 3. *)
Theorem mp3_only_gives_one_pair
    input_dir image_order audio_order entries pairs :
  image_order ≡ₚ image_extensions -> audio_order ≡ₚ audio_extensions ->
  (forall entry ext, entry ∈ entries -> ext ∈ audio_extensions ->
     glob_matches ext entry = true -> glob_matches ".mp3" entry = true) ->
  find_matching_files input_dir image_order audio_order entries = inr pairs ->
  exists img aud,
    pairs = [(img, aud)]
    /\ extract_number_from_filename (name img) = Some 3%N
    /\ extract_number_from_filename (name aud) = Some 3%N.
Proof.
  intros Hi Ha Hmp3 Hr.
  assert (Haud : audio_indices input_dir entries ⊆ {[ 3%N ]}).
  { intros k. unfold audio_indices, page_indices.
    rewrite elem_of_list_to_set, list_elem_of_omap.
    intros (f & Hf & Hk).
    apply elem_of_scan in Hf as (_ & He & ext & Hext & Hm).
    apply (Hmp3 _ _ He Hext) in Hm.
    apply glob_matches_suffix in Hm as [base Hbase].
    rewrite Hbase in Hk.
    rewrite (extract_number_mp3 base) in Hk.
    injection Hk as <-. by apply elem_of_singleton. }
  pose proof (find_matching_files_numbers _ _ _ _ _ Hi Ha Hr) as HF.
  pose proof (find_matching_files_nonempty _ _ _ _ _ Hr) as Hne.
  assert (Hsub : image_indices input_dir entries
                 ∩ audio_indices input_dir entries ⊆ {[ 3%N ]})
    by (intros k [_ Hk]%elem_of_intersection; by apply Haud).
  assert (Hle : (length pairs <= 1)%nat).
  { rewrite <- (Forall2_length _ _ _ HF), length_sorted.
    rewrite <- (size_singleton (C := gset N) 3%N). by apply subseteq_size. }
  destruct pairs as [|[img aud] [|? ?]]; [done | | simpl in Hle; lia].
  exists img, aud. split; [done |].
  destruct (sorted _) as [|k numbers] eqn:E;
    [by apply Forall2_nil_inv_l in HF |].
  apply Forall2_cons in HF as [[H1 H2] _]. simpl in H1, H2.
  assert (Hk : k ∈ image_indices input_dir entries
                   ∩ audio_indices input_dir entries)
    by (apply elem_of_sorted; rewrite E; left).
  apply Hsub, elem_of_singleton in Hk as ->. done.
Qed.

Lemma mp3_only_gives_one_pair_witness :
  exists img aud,
    [(mkPath "dist" "slide3.png", mkPath "dist" "outro.mp3")] = [(img, aud)]
    /\ extract_number_from_filename (name img) = Some 3%N
    /\ extract_number_from_filename (name aud) = Some 3%N.
Proof.
  apply (mp3_only_gives_one_pair "dist" image_extensions audio_extensions
           ["slide3.png"; "intro.mp3"; "slide1.png"; "outro.mp3"]).
  - reflexivity.
  - reflexivity.
  - intros entry ext He Hext Hm.
    apply list_elem_of_In in He. apply list_elem_of_In in Hext.
    simpl in He, Hext.
    repeat (destruct He as [<- | He]; [| try done]);
      repeat (destruct Hext as [<- | Hext]; [| try done]);
      vm_compute in Hm; vm_compute; congruence.
  - vm_compute. reflexivity.
Defined.

(** ** When the order of the scan does not matter *)

Lemma glob_perm input_dir (entries entries' : list string) ext :
  entries ≡ₚ entries' ->
  glob input_dir entries ext ≡ₚ glob input_dir entries' ext.
Proof. intros H. unfold glob. by rewrite H. Qed.

Lemma scan_perm input_dir (entries entries' exts exts' : list string) :
  entries ≡ₚ entries' -> exts ≡ₚ exts' ->
  scan input_dir entries exts ≡ₚ scan input_dir entries' exts'.
Proof.
  intros He Hx. unfold scan.
  transitivity (flat_map (glob input_dir entries') exts).
  - clear Hx. induction exts as [|ext exts IH]; simpl; [done |].
    by rewrite IH, (glob_perm _ _ _ _ He).
  - by apply Permutation_flat_map.
Qed.

Lemma at_most_one_with_number (files : list Path) (k : N) :
  NoDup (scanned_numbers files) ->
  (length (filter (fun f => extract_number_from_filename (name f) = Some k)
             files) <= 1)%nat.
Proof.
  unfold scanned_numbers.
  induction files as [|f files IH]; simpl; [lia |].
  rewrite filter_cons.
  destruct (extract_number_from_filename (name f)) as [j|] eqn:Hf.
  - intros [Hnotin Hnd]%NoDup_cons.
    destruct (decide (Some j = Some k)) as [[= ->] | Hne]; [| by apply IH].
    assert (Hnil : filter
      (fun f => extract_number_from_filename (name f) = Some k) files = []).
    { destruct (filter _ files) as [|g l] eqn:E; [done |].
      exfalso. apply Hnotin, list_elem_of_omap. exists g.
      assert (Hg : g ∈ filter
        (fun f => extract_number_from_filename (name f) = Some k) files)
        by (rewrite E; left).
      apply list_elem_of_filter in Hg. tauto. }
    rewrite Hnil. simpl. lia.
  - intros Hnd. rewrite decide_False by discriminate. by apply IH.
Qed.

Lemma last_scanned_perm (files files' : list Path) (k : N) :
  files ≡ₚ files' -> NoDup (scanned_numbers files) ->
  last_scanned k files' = last_scanned k files.
Proof.
  intros Hp Hnd. unfold last_scanned.
  pose proof (at_most_one_with_number files k Hnd) as Hle.
  assert (Hf : filter
    (fun f => extract_number_from_filename (name f) = Some k) files'
    ≡ₚ filter (fun f => extract_number_from_filename (name f) = Some k) files)
    by (by rewrite Hp).
  destruct (filter _ files) as [|f [|g l]]; simpl in Hle; [| | lia].
  - by apply Permutation_nil_r in Hf as ->.
  - by apply Permutation_singleton_r in Hf as ->.
Qed.

(** X5.  Without two files of one kind on the same page number, the result
    of [find_matching_files] depends neither on the order in which the
    extension sets iterate nor on the order of the directory listing. *)
Theorem find_matching_files_order_independent
    input_dir image_order audio_order entries entries' :
  image_order ≡ₚ image_extensions -> audio_order ≡ₚ audio_extensions ->
  entries' ≡ₚ entries ->
  NoDup (scanned_numbers (scan input_dir entries image_extensions)) ->
  NoDup (scanned_numbers (scan input_dir entries audio_extensions)) ->
  find_matching_files input_dir image_order audio_order entries'
  = find_matching_files input_dir image_extensions audio_extensions entries.
Proof.
  intros Hi Ha He Hni Hna.
  assert (Himg : collect_files input_dir entries' image_order
                 = collect_files input_dir entries image_extensions).
  { apply map_eq. intros k. rewrite !collect_files_lookup.
    apply last_scanned_perm; [| done]. symmetry. by apply scan_perm. }
  assert (Haud : collect_files input_dir entries' audio_order
                 = collect_files input_dir entries audio_extensions).
  { apply map_eq. intros k. rewrite !collect_files_lookup.
    apply last_scanned_perm; [| done]. symmetry. by apply scan_perm. }
  unfold find_matching_files. by rewrite Himg, Haud.
Qed.

Lemma find_matching_files_order_independent_witness :
  find_matching_files "dist"
    [".tiff"; ".jpg"; ".png"; ".bmp"; ".jpeg"]
    [".ogg"; ".wav"; ".m4a"; ".mp3"; ".aac"]
    ["b2.wav"; "a1.png"; "b1.ogg"; "a2.jpg"]
  = find_matching_files "dist" image_extensions audio_extensions
      ["a1.png"; "a2.jpg"; "b1.ogg"; "b2.wav"].
Proof.
  apply find_matching_files_order_independent.
  - apply (bool_decide_unpack _). vm_compute. reflexivity.
  - apply (bool_decide_unpack _). vm_compute. reflexivity.
  - apply (bool_decide_unpack _). vm_compute. reflexivity.
  - apply (bool_decide_unpack _). vm_compute. reflexivity.
  - apply (bool_decide_unpack _). vm_compute. reflexivity.
Defined.

(** ** The warnings about unmatched files *)

Lemma pair_numbers input_dir image_order audio_order entries pairs (k : N) :
  image_order ≡ₚ image_extensions -> audio_order ≡ₚ audio_extensions ->
  find_matching_files input_dir image_order audio_order entries = inr pairs ->
  k ∈ image_indices input_dir entries ∩ audio_indices input_dir entries <->
  exists p, p ∈ pairs
            /\ extract_number_from_filename (name p.1) = Some k
            /\ extract_number_from_filename (name p.2) = Some k.
Proof.
  intros Hi Ha Hr.
  pose proof (common_indices input_dir _ _ entries Hi Ha) as Hc.
  destruct (find_matching_files_spec input_dir image_order audio_order entries)
    as [[_ He] | (_ & pairs' & Hp & HF)]; [congruence |].
  assert (pairs' = pairs) as -> by congruence. rewrite Hc in HF.
  split.
  - intros Hk%elem_of_sorted. apply list_elem_of_lookup in Hk as [j Hj].
    destruct (Forall2_lookup_l _ _ _ _ _ HF Hj) as (p & Hp' & H1 & H2).
    exists p. split; [by eapply list_elem_of_lookup_2 |].
    apply last_scanned_Some in H1 as [_ H1].
    apply last_scanned_Some in H2 as [_ H2]. done.
  - intros (p & [j Hj]%list_elem_of_lookup & H1 & _).
    destruct (Forall2_lookup_r _ _ _ _ _ HF Hj) as (k' & Hk' & H1' & _).
    apply last_scanned_Some in H1' as [_ H1'].
    assert (k' = k) as <- by congruence.
    apply elem_of_sorted. by eapply list_elem_of_lookup_2.
Qed.

(** X6.  The warnings account for every file left out: in a run that
    returns pairs, a page number carried by a recognised image is either
    the number of a returned pair or listed as an image without audio, not
    both; likewise for the audio files.  Both lists are strictly
    ascending. *)
Theorem unmatched_report_complete
    input_dir image_order audio_order entries pairs :
  image_order ≡ₚ image_extensions -> audio_order ≡ₚ audio_extensions ->
  find_matching_files input_dir image_order audio_order entries = inr pairs ->
  let paired k :=
    exists p, p ∈ pairs
              /\ extract_number_from_filename (name p.1) = Some k
              /\ extract_number_from_filename (name p.2) = Some k in
  let report :=
    unmatched_report input_dir image_order audio_order entries in
  (forall k, k ∈ image_indices input_dir entries <->
             paired k \/ k ∈ report.1)
  /\ (forall k, k ∈ audio_indices input_dir entries <->
                paired k \/ k ∈ report.2)
  /\ (forall k, paired k -> ~ k ∈ report.1 /\ ~ k ∈ report.2)
  /\ StronglySorted N.lt report.1 /\ StronglySorted N.lt report.2.
Proof.
  intros Hi Ha Hr paired report.
  assert (Hpaired : forall k,
    paired k <->
    k ∈ image_indices input_dir entries ∩ audio_indices input_dir entries).
  { intros k. symmetry.
    by apply (pair_numbers input_dir image_order audio_order). }
  assert (H1 : forall k, k ∈ report.1 <->
    k ∈ image_indices input_dir entries ∖ audio_indices input_dir entries).
  { intros k. subst report. unfold unmatched_report, missing_audio. simpl.
    rewrite elem_of_sorted, !dom_collect_files.
    unfold image_indices, audio_indices.
    by rewrite (page_indices_scan_perm _ _ _ _ Hi),
               (page_indices_scan_perm _ _ _ _ Ha). }
  assert (H2 : forall k, k ∈ report.2 <->
    k ∈ audio_indices input_dir entries ∖ image_indices input_dir entries).
  { intros k. subst report. unfold unmatched_report, missing_images. simpl.
    rewrite elem_of_sorted, !dom_collect_files.
    unfold image_indices, audio_indices.
    by rewrite (page_indices_scan_perm _ _ _ _ Hi),
               (page_indices_scan_perm _ _ _ _ Ha). }
  split; [| split; [| split; [| split]]].
  - intros k. rewrite Hpaired, H1, elem_of_intersection, elem_of_difference.
    destruct (decide (k ∈ audio_indices input_dir entries)); tauto.
  - intros k. rewrite Hpaired, H2, elem_of_intersection, elem_of_difference.
    destruct (decide (k ∈ image_indices input_dir entries)); tauto.
  - intros k. rewrite Hpaired, H1, H2, elem_of_intersection,
      !elem_of_difference. tauto.
  - apply sorted_ascending.
  - apply sorted_ascending.
Qed.

Lemma unmatched_report_complete_witness :
  unmatched_report "dist" image_extensions audio_extensions
    ["s1.png"; "s2.png"; "s5.png"; "v2.wav"; "v7.wav"; "v9.ogg"]
  = ([1%N; 5%N], [7%N; 9%N])
  /\ StronglySorted N.lt
       (unmatched_report "dist" image_extensions audio_extensions
          ["s1.png"; "s2.png"; "s5.png"; "v2.wav"; "v7.wav"; "v9.ogg"]).1.
Proof.
  split; [vm_compute; reflexivity |].
  apply (unmatched_report_complete "dist" image_extensions audio_extensions
           ["s1.png"; "s2.png"; "s5.png"; "v2.wav"; "v7.wav"; "v9.ogg"]
           [(mkPath "dist" "s2.png", mkPath "dist" "v2.wav")]).
  - reflexivity.
  - reflexivity.
  - vm_compute. reflexivity.
Defined.

(** ** Entries that no pattern matches *)

Lemma glob_drop_unrecognised input_dir entries ext :
  ext ∈ image_extensions ++ audio_extensions ->
  glob input_dir (filter (fun e => recognised e = true) entries) ext
  = glob input_dir entries ext.
Proof.
  intros Hext. unfold glob. f_equal.
  apply list_filter_filter_l. intros e He.
  unfold recognised. apply existsb_exists. exists ext.
  split; [by apply list_elem_of_In | done].
Qed.

Lemma collect_files_drop_unrecognised input_dir entries exts :
  Forall (fun ext => ext ∈ image_extensions ++ audio_extensions) exts ->
  collect_files input_dir (filter (fun e => recognised e = true) entries) exts
  = collect_files input_dir entries exts.
Proof.
  intros Hall. unfold collect_files. generalize (∅ : gmap N Path).
  induction Hall as [|ext exts Hext _ IH]; intros files; simpl;
    [reflexivity |].
  rewrite glob_drop_unrecognised by done. apply IH.
Qed.

(** X7.  Entries whose name ends in none of the ten extensions (other
    files, names with the extension in capitals) play no part:
    [find_matching_files] gives the result it gives on the directory
    without them. *)
Theorem find_matching_files_ignores_other_files
    input_dir image_order audio_order entries :
  image_order ≡ₚ image_extensions -> audio_order ≡ₚ audio_extensions ->
  find_matching_files input_dir image_order audio_order
    (filter (fun e => recognised e = true) entries)
  = find_matching_files input_dir image_order audio_order entries.
Proof.
  intros Hi Ha. unfold find_matching_files.
  assert (Himg : Forall (fun ext => ext ∈ image_extensions ++ audio_extensions)
                   image_order).
  { apply Forall_forall. intros ext Hext. rewrite Hi in Hext.
    apply elem_of_app. by left. }
  assert (Haud : Forall (fun ext => ext ∈ image_extensions ++ audio_extensions)
                   audio_order).
  { apply Forall_forall. intros ext Hext. rewrite Ha in Hext.
    apply elem_of_app. by right. }
  by rewrite !collect_files_drop_unrecognised.
Qed.

Lemma find_matching_files_ignores_other_files_witness :
  find_matching_files "dist" image_extensions audio_extensions
    (filter (fun e => recognised e = true)
       ["s1.png"; "S2.PNG"; "v1.wav"; "v2.flac"; "notes2.txt"])
  = find_matching_files "dist" image_extensions audio_extensions
      ["s1.png"; "S2.PNG"; "v1.wav"; "v2.flac"; "notes2.txt"].
Proof.
  apply find_matching_files_ignores_other_files; reflexivity.
Defined.

(** ** Zero padding *)

Lemma chars_zeros (k : nat) : chars (zeros k) = replicate k "0"%char.
Proof. apply String.list_ascii_of_string_of_list_ascii. Qed.

Lemma int_of_digits_zeros (k : nat) (ds : list ascii) :
  int_of_digits (replicate k "0"%char ++ ds) = int_of_digits ds.
Proof.
  unfold int_of_digits. rewrite foldl_app. f_equal.
  induction k as [|k IH]; [reflexivity |].
  rewrite replicate_S_end, foldl_app, IH. reflexivity.
Qed.

(** X8.  Padding the page number with zeros does not change it: when the
    last digit run of a name is [run], the name with [k] zeros put in
    front of that run gets the same page number, so [slide7.png] pairs
    with [voice007.wav]. *)
Theorem zero_padding_keeps_the_index (pre run post : string) (k : nat) :
  run <> ""%string ->
  all_digits (chars run) -> no_digit (chars post) ->
  not_ending_in_digit (chars pre) ->
  extract_number_from_filename (pre +:+ zeros k +:+ run +:+ post)
  = extract_number_from_filename (pre +:+ run +:+ post).
Proof.
  intros Hne Hrun Hpost Hpre. unfold extract_number_from_filename.
  rewrite !chars_app, chars_zeros.
  rewrite (app_assoc (replicate k "0"%char) (chars run) (chars post)).
  rewrite !findall_digits_last; try done.
  - by rewrite int_of_digits_zeros.
  - destruct run; [done | discriminate].
  - intros E. apply (f_equal length) in E. rewrite length_app in E.
    destruct run; [done |]. simpl in E. lia.
  - apply Forall_app. split; [| done].
    apply Forall_forall. by intros c ->%elem_of_replicate_inv.
Qed.

Lemma zero_padding_keeps_the_index_witness :
  extract_number_from_filename ("voice" +:+ zeros 2 +:+ "7" +:+ ".wav")
  = extract_number_from_filename ("voice" +:+ "7" +:+ ".wav").
Proof.
  apply (zero_padding_keeps_the_index "voice" "7" ".wav" 2).
  - discriminate.
  - repeat constructor.
  - repeat constructor.
  - intros pre' c H.
    assert (Hl : last (chars "voice") = last (pre' ++ [c])) by (by rewrite H).
    rewrite last_snoc in Hl. by injection Hl as <-.
Defined.

(** ** Of the timeline *)

Lemma not_positive (q : Q) : (q <= 0)%Q -> is_positive q = false.
Proof.
  unfold is_positive, Qle. simpl. intros H. apply Z.ltb_ge. lia.
Qed.

Section Slides.
Variable resolution : option Resolution.
Variables pause_before pause_after : Q.

Lemma timeline_without_pauses (n i : nat) slide_pairs durations :
  is_positive pause_before = false -> is_positive pause_after = false ->
  timeline resolution pause_before pause_after n i slide_pairs durations
  = slides resolution slide_pairs durations.
Proof.
  intros Hb Ha. revert i durations.
  induction slide_pairs as [|[image_file audio_file] rest IH];
    intros i [|d ds]; try reflexivity.
  cbn [timeline slides zip_with]. unfold segments, pause_before_of,
    pause_after_of. rewrite Hb, Ha, !andb_false_r. simpl.
  f_equal. apply IH.
Qed.

Lemma timeline_narrated (n i : nat) slide_pairs durations :
  filter (fun c => is_Some (clip_audio c))
    (timeline resolution pause_before pause_after n i slide_pairs durations)
  = slides resolution slide_pairs durations.
Proof.
  revert i durations.
  induction slide_pairs as [|[image_file audio_file] rest IH];
    intros i [|d ds]; try reflexivity.
  cbn [timeline slides zip_with]. unfold segments, pause_before_of,
    pause_after_of.
  rewrite !filter_app, IH.
  destruct ((0 <? i)%nat && is_positive pause_before),
    ((i <? n - 1)%nat && is_positive pause_after);
    rewrite ?filter_cons, ?filter_nil; simpl;
    repeat (rewrite decide_True by (by eexists)
            || rewrite decide_False by (by intros [? ?])); reflexivity.
Qed.

Lemma timeline_length slide_pairs durations :
  length slide_pairs = length durations ->
  forall n i, n = (i + length slide_pairs)%nat ->
  length (timeline resolution pause_before pause_after n i slide_pairs
            durations)
  = (length slide_pairs
     + (if is_positive pause_before
        then (if (i =? 0)%nat then length slide_pairs - 1
              else length slide_pairs) else 0)
     + (if is_positive pause_after then length slide_pairs - 1 else 0))%nat.
Proof.
  revert durations.
  induction slide_pairs as [|[image_file audio_file] rest IH];
    intros [|d ds] Hlen n i Hn; simpl in Hlen; try discriminate.
  - simpl. destruct (is_positive pause_before), (is_positive pause_after),
      (i =? 0)%nat; reflexivity.
  - injection Hlen as Hlen. cbn [timeline].
    rewrite length_app, (IH ds Hlen n (S i)) by (simpl in Hn; lia).
    unfold segments, pause_before_of, pause_after_of.
    replace (i <? n - 1)%nat with (0 <? length rest)%nat
      by (apply eq_true_iff_eq; rewrite !Nat.ltb_lt; simpl in Hn; lia).
    cbn [length]. clear IH Hlen Hn. generalize (length rest) as m.
    intros m.
    destruct (is_positive pause_before), (is_positive pause_after),
      i as [|i], m as [|m]; simpl; lia.
Qed.

Lemma timeline_sizes (n i : nat) slide_pairs durations :
  Forall (fun c => clip_size c = resolution)
    (timeline resolution pause_before pause_after n i slide_pairs durations).
Proof.
  revert i durations.
  induction slide_pairs as [|[image_file audio_file] rest IH];
    intros i [|d ds]; try constructor.
  cbn [timeline]. apply Forall_app. split; [| apply IH].
  unfold segments, pause_before_of, pause_after_of.
  destruct ((0 <? i)%nat && is_positive pause_before),
    ((i <? n - 1)%nat && is_positive pause_after);
    repeat constructor.
Qed.
End Slides.


(** X9.  A pause value that is zero or negative inserts nothing: with both
    values not positive, and pairs that the backend serves, the loop ends
    normally, the clips are the narrated slides alone, in the order of the
    pairs, and the total is the sum of the audio lengths. *)
Theorem nonpositive_pauses_insert_nothing
    B resolution pause_before pause_after slide_pairs durations already_open :
  (forall r, resolution = Some r -> resize_ok B r = true) ->
  Forall2 (served B) slide_pairs durations ->
  (pause_before <= 0)%Q -> (pause_after <= 0)%Q ->
  exists fr,
    timeline_loop B resolution pause_before pause_after (length slide_pairs)
      0 slide_pairs (start already_open) = (fr, inr tt)
    /\ clips fr = slides resolution slide_pairs durations
    /\ (total_duration fr == sum_durations durations)%Q.
Proof.
  intros Hres Hserved Hb%not_positive Ha%not_positive.
  pose proof (Forall2_length _ _ _ Hserved) as Hlen.
  eexists. split; [by apply timeline_loop_ok |].
  cbn [run_clips start total_duration clips app]. split.
  - by apply timeline_without_pauses.
  - rewrite total_fold.
    rewrite (timeline_sum resolution pause_before pause_after slide_pairs
               durations Hlen (length slide_pairs) 0 eq_refl).
    unfold effective. rewrite Hb, Ha. unfold times. ring.
Qed.

Lemma nonpositive_pauses_insert_nothing_witness :
  exists fr,
    timeline_loop studio None 0 (- (1 # 2)) 2 0
      [(mkPath "dist" "slide01.png", mkPath "dist" "voice01.wav");
       (mkPath "dist" "slide02.png", mkPath "dist" "voice02.wav")]
      (start []) = (fr, inr tt)
    /\ clips fr
       = slides None
           [(mkPath "dist" "slide01.png", mkPath "dist" "voice01.wav");
            (mkPath "dist" "slide02.png", mkPath "dist" "voice02.wav")]
           [3%Q; 2%Q]
    /\ (total_duration fr == sum_durations [3%Q; 2%Q])%Q.
Proof.
  apply (nonpositive_pauses_insert_nothing studio None 0 (- (1 # 2))
           [(mkPath "dist" "slide01.png", mkPath "dist" "voice01.wav");
            (mkPath "dist" "slide02.png", mkPath "dist" "voice02.wav")]
           [3%Q; 2%Q] []).
  - discriminate.
  - repeat constructor.
  - discriminate.
  - discriminate.
Defined.

(** X10.  Whatever the pauses, when the backend serves the pairs the
    narrated clips of the timeline are the slides of the pairs, each once
    and in the order of the pairs, and the timeline holds [n] slides, [n-1]
    pauses before if [pause_before > 0] and [n-1] pauses after if
    [pause_after > 0]. *)
Theorem timeline_keeps_the_slides
    B resolution pause_before pause_after slide_pairs durations already_open :
  (forall r, resolution = Some r -> resize_ok B r = true) ->
  Forall2 (served B) slide_pairs durations ->
  let n := length slide_pairs in
  exists fr,
    timeline_loop B resolution pause_before pause_after n 0 slide_pairs
      (start already_open) = (fr, inr tt)
    /\ filter (fun c => is_Some (clip_audio c)) (clips fr)
       = slides resolution slide_pairs durations
    /\ length (clips fr)
       = (n + (if is_positive pause_before then n - 1 else 0)
          + (if is_positive pause_after then n - 1 else 0))%nat.
Proof.
  intros Hres Hserved n.
  pose proof (Forall2_length _ _ _ Hserved) as Hlen.
  eexists. split; [by apply timeline_loop_ok |].
  cbn [run_clips start clips app]. split.
  - apply timeline_narrated.
  - by rewrite (timeline_length resolution pause_before pause_after
                  slide_pairs durations Hlen n 0 eq_refl).
Qed.

Lemma timeline_keeps_the_slides_witness :
  exists fr,
    timeline_loop studio None (1 # 2) 0 3 0
      [(mkPath "dist" "slide01.png", mkPath "dist" "voice01.wav");
       (mkPath "dist" "slide02.png", mkPath "dist" "voice02.wav");
       (mkPath "dist" "slide04.png", mkPath "dist" "voice04.wav")]
      (start []) = (fr, inr tt)
    /\ filter (fun c => is_Some (clip_audio c)) (clips fr)
       = slides None
           [(mkPath "dist" "slide01.png", mkPath "dist" "voice01.wav");
            (mkPath "dist" "slide02.png", mkPath "dist" "voice02.wav");
            (mkPath "dist" "slide04.png", mkPath "dist" "voice04.wav")]
           [3%Q; 2%Q; 3%Q]
    /\ length (clips fr) = 5%nat.
Proof.
  apply (timeline_keeps_the_slides studio None (1 # 2) 0
           [(mkPath "dist" "slide01.png", mkPath "dist" "voice01.wav");
            (mkPath "dist" "slide02.png", mkPath "dist" "voice02.wav");
            (mkPath "dist" "slide04.png", mkPath "dist" "voice04.wav")]
           [3%Q; 2%Q; 3%Q] []).
  - discriminate.
  - repeat constructor.
Defined.

(** X11.  The target resolution is applied to every clip alike: when the
    backend serves the pairs, every clip of the timeline, pause or slide,
    has the size [resolution] (none when no resolution is asked for). *)
Theorem every_clip_is_resized
    B resolution pause_before pause_after slide_pairs durations already_open :
  (forall r, resolution = Some r -> resize_ok B r = true) ->
  Forall2 (served B) slide_pairs durations ->
  exists fr,
    timeline_loop B resolution pause_before pause_after (length slide_pairs)
      0 slide_pairs (start already_open) = (fr, inr tt)
    /\ Forall (fun c => clip_size c = resolution) (clips fr).
Proof.
  intros Hres Hserved.
  eexists. split; [by apply timeline_loop_ok |].
  cbn [run_clips start clips app]. apply timeline_sizes.
Qed.

Lemma every_clip_is_resized_witness :
  exists fr,
    timeline_loop studio (Some (1280, 720)%Z) (1 # 2) (1 # 2) 2 0
      [(mkPath "dist" "slide01.png", mkPath "dist" "voice01.wav");
       (mkPath "dist" "slide02.png", mkPath "dist" "voice02.wav")]
      (start []) = (fr, inr tt)
    /\ Forall (fun c => clip_size c = Some (1280, 720)%Z) (clips fr).
Proof.
  apply (every_clip_is_resized studio (Some (1280, 720)%Z) (1 # 2) (1 # 2)
           [(mkPath "dist" "slide01.png", mkPath "dist" "voice01.wav");
            (mkPath "dist" "slide02.png", mkPath "dist" "voice02.wav")]
           [3%Q; 2%Q] []).
  - reflexivity.
  - repeat constructor.
Defined.

(** ** Of the whole run *)





(** *** A pair that the backend does not serve *)




Section Failures.
Variable B : Backend.
Variable resolution : option Resolution.
Variables pause_before pause_after : Q.
Hypothesis resize_succeeds :
  forall r, resolution = Some r -> resize_ok B r = true.



End Failures.







(** * Properties of the narration script *)

Example extract_comments_example :
  extract_comments_from_slide
    (Some (text_of
       "---
marp: true
---
# One
<!-- hello -->
---
# Two
---
# Three <!-- a --> text <!--
b
-->"))
  = [(1%N, text_of "hello"); (3%N, text_of "a b")].
Proof. vm_compute. reflexivity. Qed.

(** ** From the file name back to the page *)

Lemma digits_acc (u : Decimal.uint) (p : positive) :
  foldl (fun acc c => 10 * acc + digit_value c)%N (Npos p)
    (chars (NilEmpty.string_of_uint u))
  = Npos (Pos.of_uint_acc u p).
Proof.
  revert p. induction u; intros p; simpl; [reflexivity | ..];
    rewrite <- IHu; f_equal; unfold digit_value; simpl; lia.
Qed.

Lemma digits_value (u : Decimal.uint) :
  int_of_digits (chars (NilEmpty.string_of_uint u)) = N.of_uint u.
Proof.
  unfold int_of_digits, N.of_uint.
  induction u; simpl; [reflexivity | exact IHu | ..];
    rewrite <- digits_acc; reflexivity.
Qed.

(** [int(str(n)) = n] *)
Lemma int_of_str (n : N) : int_of_digits (chars (str n)) = n.
Proof. unfold str. rewrite digits_value. apply DecimalN.Unsigned.of_to. Qed.

Lemma digits_all (u : Decimal.uint) :
  all_digits (chars (NilEmpty.string_of_uint u)).
Proof. induction u; simpl; constructor; done. Qed.

Lemma str_nonempty (n : N) : chars (str n) <> [].
Proof.
  unfold str. destruct n as [|p]; [discriminate |]. simpl.
  pose proof (DecimalPos.Unsigned.to_uint_nonnil p) as H.
  destruct (Pos.to_uint p); [done | discriminate ..].
Qed.

Lemma suffix_chars_app (pre suf : list ascii) :
  suffix_chars suf (pre ++ suf) (length pre) = true.
Proof.
  induction pre as [|c pre IH]; simpl.
  - destruct suf; simpl; first [reflexivity | by apply bool_decide_eq_true].
  - exact IH.
Qed.

(** A name that ends in [ext] is matched by the pattern of [ext]. *)
Lemma glob_matches_app (base ext : string) :
  glob_matches ext (base +:+ ext) = true.
Proof.
  unfold glob_matches. rewrite chars_app, length_app.
  apply andb_true_iff. split; [apply Nat.leb_le; lia |].
  replace (length (chars base) + length (chars ext) - length (chars ext))%nat
    with (length (chars base)) by lia.
  apply suffix_chars_app.
Qed.

(** X15.  The audio that [text_to_speech] writes for page [p] is found
    again by the video script as the narration of page [p]: the name
    [slide_page_pp.wav] matches the pattern of [.wav] and its page number
    is [p]; so two pages never share a file. *)
Theorem output_file_is_narration_of_its_page (page_num : N) :
  extract_number_from_filename (output_file_name page_num) = Some page_num
  /\ glob_matches ".wav" (output_file_name page_num) = true
  /\ (forall other,
        output_file_name other = output_file_name page_num ->
        other = page_num).
Proof.
  assert (Hext : forall p,
    extract_number_from_filename (output_file_name p) = Some p).
  { intros p. unfold output_file_name, extract_number_from_filename.
    rewrite !chars_app. rewrite findall_digits_last.
    - unfold format_02d. rewrite chars_app, chars_zeros.
      by rewrite int_of_digits_zeros, int_of_str.
    - unfold format_02d. rewrite chars_app. intros E.
      apply app_eq_nil in E as [_ E]. by apply str_nonempty in E.
    - unfold format_02d. rewrite chars_app, chars_zeros.
      apply Forall_app. split; [| apply digits_all].
      apply Forall_forall. by intros c ->%elem_of_replicate_inv.
    - by repeat constructor.
    - intros pre' c H.
      assert (Hl : last (chars "slide_page_") = last (pre' ++ [c]))
        by (by rewrite H).
      rewrite last_snoc in Hl. by injection Hl as <-. }
  split; [apply Hext |]. split.
  - unfold output_file_name.
    change ("slide_page_" +:+ format_02d page_num +:+ ".wav")%string
      with ("slide_page_" +:+ (format_02d page_num +:+ ".wav"))%string.
    rewrite <- string_app_assoc. apply glob_matches_app.
  - intros other E. apply (f_equal extract_number_from_filename) in E.
    rewrite !Hext in E. by injection E.
Qed.


Lemma output_file_is_narration_of_its_page_witness :
  output_file_name 7 = "slide_page_07.wav"%string
  /\ extract_number_from_filename "slide_page_07.wav" = Some 7%N.
Proof.
  split; [reflexivity |].
  apply (output_file_is_narration_of_its_page 7).
Defined.

(** ** The pages of the comments *)

Lemma foldl_page_step (slides : list Text) : forall n acc,
  (foldl page_step (n, acc) slides).2
  = acc ++ numbered_from n (filter (fun slide => skipped slide = false) slides).
Proof.
  induction slides as [|slide slides IH]; intros n acc.
  - simpl. by rewrite app_nil_r.
  - cbn [foldl]. rewrite filter_cons. unfold page_step at 2.
    destruct (skipped slide) eqn:Hs.
    + rewrite decide_False by done. apply IH.
    + rewrite decide_True by done. cbn [numbered_from fst snd].
      destruct (comment_of slide) as [t|]; rewrite IH.
      * by rewrite <- app_assoc.
      * reflexivity.
Qed.

Lemma extract_comments_numbered (content : Text) :
  extract_comments_from_slide (Some content)
  = numbered_from 0 (pages content).
Proof. unfold extract_comments_from_slide. by rewrite foldl_page_step. Qed.

Lemma elem_of_numbered_from (slides : list Text) : forall n p t,
  (p, t) ∈ numbered_from n slides <->
  exists i slide,
    p = (n + N.of_nat (S i))%N
    /\ slides !! i = Some slide /\ comment_of slide = Some t.
Proof.
  induction slides as [|slide slides IH]; intros n p t; simpl.
  - split; [by intros ?%not_elem_of_nil | by intros (i & ? & _ & ? & _)].
  - rewrite elem_of_app, IH. split.
    + intros [Hin | (i & slide' & -> & Hi & Hc)].
      * destruct (comment_of slide) as [t'|] eqn:Hc;
          [| by apply not_elem_of_nil in Hin].
        apply list_elem_of_singleton in Hin as [= -> ->].
        exists 0%nat, slide. split; [lia | done].
      * exists (S i), slide'. split; [lia | done].
    + intros ([|i] & slide' & -> & Hi & Hc); simpl in Hi.
      * injection Hi as <-. left. rewrite Hc.
        apply list_elem_of_singleton. f_equal. lia.
      * right. exists i, slide'. split; [lia | done].
Qed.

Lemma numbered_from_ascending (slides : list Text) : forall n,
  StronglySorted N.lt (n :: (numbered_from n slides).*1).
Proof.
  induction slides as [|slide slides IH]; intros n; simpl.
  - repeat constructor.
  - specialize (IH (N.succ n)).
    apply StronglySorted_cons in IH as [Hall IH].
    rewrite fmap_app. destruct (comment_of slide) as [t|]; simpl.
    + apply StronglySorted_cons. split.
      * constructor; [lia |].
        eapply Forall_impl; [exact Hall | simpl; intros; lia].
      * by apply StronglySorted_cons.
    + apply StronglySorted_cons. split; [| done].
      eapply Forall_impl; [exact Hall | simpl; intros; lia].
Qed.

(** X16.  The page number of a comment is the position of its slide among
    the parts of the deck that are neither blank nor the front matter,
    counted from 1: slides without a comment give no entry but take their
    number.  The entries come in strictly ascending page order. *)
Theorem comments_are_numbered_by_page (content : Text) :
  let comments := extract_comments_from_slide (Some content) in
  (forall p t,
      (p, t) ∈ comments <->
      exists i slide,
        p = N.of_nat (S i)
        /\ pages content !! i = Some slide /\ comment_of slide = Some t)
  /\ StronglySorted N.lt (comments.*1).
Proof.
  intros comments. subst comments. rewrite extract_comments_numbered. split.
  - intros p t. rewrite elem_of_numbered_from.
    by setoid_rewrite N.add_0_l.
  - pose proof (numbered_from_ascending (pages content) 0) as H.
    by apply StronglySorted_cons in H as [_ H].
Qed.

Lemma comments_are_numbered_by_page_witness :
  (3%N, text_of "b") ∈
    extract_comments_from_slide
      (Some (text_of "# A <!-- a -->---# B---# C <!-- b -->")).
Proof.
  apply (comments_are_numbered_by_page
           (text_of "# A <!-- a -->---# B---# C <!-- b -->")).
  exists 2%nat, (text_of "# C <!-- b -->"). by vm_compute.
Defined.

(** ** What is sent to the speech server *)

Lemma lstrip_head (s : Text) (c : N) (r : Text) :
  lstrip s = c :: r -> is_space c = false.
Proof.
  induction s as [|a s IH]; simpl; [discriminate |].
  destruct (is_space a) eqn:Ha; [exact IH |].
  by intros [= <- _].
Qed.

Lemma lstrip_snoc (l : Text) (c : N) :
  is_space c = false -> lstrip (l ++ [c]) = lstrip l ++ [c].
Proof.
  intros Hc. induction l as [|a l IH]; simpl.
  - by rewrite Hc.
  - by destruct (is_space a).
Qed.

Lemma rstrip_cons (c : N) (r : Text) :
  is_space c = false -> rstrip (c :: r) = c :: rstrip r.
Proof.
  intros Hc. unfold rstrip.
  by rewrite reverse_cons, lstrip_snoc, reverse_snoc.
Qed.

Lemma strip_head (s : Text) (c : N) :
  head (strip s) = Some c -> is_space c = false.
Proof.
  unfold strip. destruct (lstrip s) as [|a r] eqn:E; [discriminate |].
  pose proof (lstrip_head _ _ _ E) as Ha.
  rewrite rstrip_cons by done. by intros [= <-].
Qed.

Lemma strip_last (s : Text) (c : N) :
  last (strip s) = Some c -> is_space c = false.
Proof.
  unfold strip, rstrip. rewrite last_reverse.
  destruct (lstrip (reverse (lstrip s))) as [|a r] eqn:E; [discriminate |].
  intros [= <-]. by eapply lstrip_head.
Qed.

Lemma comment_of_Some (slide t : Text) :
  comment_of slide = Some t -> t <> [] /\ exists m, t = strip m.
Proof.
  unfold comment_of. destruct (findall_comments slide) as [|m ms];
    [discriminate |].
  destruct (strip (join_space (m :: ms))) as [|c r] eqn:E; [discriminate |].
  intros [= <-]. split; [discriminate | eauto].
Qed.

(** X17.  The text kept for a page is never empty and has no white space
    at its start or at its end, whatever the file holds; a file that
    cannot be read gives no text at all. *)
Theorem comments_are_trimmed (content : option Text) (p : N) (t : Text) :
  (p, t) ∈ extract_comments_from_slide content ->
  t <> []
  /\ (forall c, head t = Some c -> is_space c = false)
  /\ (forall c, last t = Some c -> is_space c = false).
Proof.
  destruct content as [content|]; [| by intros ?%not_elem_of_nil].
  intros Hin. rewrite extract_comments_numbered in Hin.
  apply elem_of_numbered_from in Hin as (i & slide & _ & _ & Hc).
  apply comment_of_Some in Hc as [Hne [m ->]].
  split; [done |]. split; intros c.
  - apply strip_head.
  - apply strip_last.
Qed.

Lemma comments_are_trimmed_witness :
  text_of "hello  you" <> []
  /\ (forall c, head (text_of "hello  you") = Some c -> is_space c = false)
  /\ (forall c, last (text_of "hello  you") = Some c -> is_space c = false).
Proof.
  apply (comments_are_trimmed
           (Some (text_of "# A <!--
   hello  you   -->")) 1%N).
  vm_compute. left.
Defined.

(** ** Where a comment starts and ends *)

Lemma occurs_cons (pat s : Text) (c : N) :
  occurs pat s -> occurs pat (c :: s).
Proof. intros (b & a & ->). by exists (c :: b), a. Qed.

Lemma scan_open_mark (rest : Text) :
  scan_comments None (text_of "<!--" ++ rest) = scan_comments (Some []) rest.
Proof. reflexivity. Qed.

Lemma scan_close_mark (cur rest : Text) :
  scan_comments (Some cur) (text_of "-->" ++ rest)
  = strip cur :: scan_comments None rest.
Proof. reflexivity. Qed.

Lemma scan_before_open (before rest : Text) :
  ~ occurs (text_of "<!--") before ->
  scan_comments None (before ++ text_of "<!--" ++ rest)
  = scan_comments (Some []) rest.
Proof.
  induction before as [|c1 before IH]; intros Hno; [apply scan_open_mark |].
  specialize (IH (fun H => Hno (occurs_cons _ _ c1 H))).
  rewrite <- IH. clear IH.
  destruct before as [|c2 [|c3 [|c4 before]]]; cbn -[N.eqb];
    rewrite ?andb_false_r; try reflexivity.
  destruct ((c1 =? 60) && (c2 =? 33) && (c3 =? 45) && (c4 =? 45))%N eqn:E;
    [| reflexivity].
  exfalso. apply Hno.
  apply andb_true_iff in E as [[[H1 H2]%andb_true_iff H3]%andb_true_iff H4].
  apply N.eqb_eq in H1 as ->, H2 as ->, H3 as ->, H4 as ->.
  by exists [], before.
Qed.

Lemma scan_before_close (body rest : Text) : forall cur,
  ~ occurs (text_of "-->") body ->
  scan_comments (Some cur) (body ++ text_of "-->" ++ rest)
  = strip (cur ++ body) :: scan_comments None rest.
Proof.
  induction body as [|c1 body IH]; intros cur Hno.
  - rewrite app_nil_r. apply scan_close_mark.
  - specialize (IH (cur ++ [c1]) (fun H => Hno (occurs_cons _ _ c1 H))).
    rewrite <- app_assoc in IH. simpl in IH. rewrite <- IH. clear IH.
    destruct body as [|c2 [|c3 body]]; cbn -[N.eqb strip];
      rewrite ?andb_false_r; try reflexivity.
    destruct ((c1 =? 45) && (c2 =? 45) && (c3 =? 62))%N eqn:E;
      [| reflexivity].
    exfalso. apply Hno.
    apply andb_true_iff in E as [[H1 H2]%andb_true_iff H3].
    apply N.eqb_eq in H1 as ->, H2 as ->, H3 as ->.
    by exists [], body.
Qed.

Lemma scan_without_open (s : Text) :
  ~ occurs (text_of "<!--") s -> scan_comments None s = [].
Proof.
  induction s as [|c1 s IH]; intros Hno; [reflexivity |].
  specialize (IH (fun H => Hno (occurs_cons _ _ c1 H))).
  destruct s as [|c2 [|c3 [|c4 s]]]; cbn -[N.eqb]; try exact IH.
  destruct ((c1 =? 60) && (c2 =? 33) && (c3 =? 45) && (c4 =? 45))%N eqn:E;
    [| exact IH].
  exfalso. apply Hno.
  apply andb_true_iff in E as [[[H1 H2]%andb_true_iff H3]%andb_true_iff H4].
  apply N.eqb_eq in H1 as ->, H2 as ->, H3 as ->, H4 as ->.
  by exists [], s.
Qed.

Lemma scan_without_close (s : Text) : forall cur,
  ~ occurs (text_of "-->") s -> scan_comments (Some cur) s = [].
Proof.
  induction s as [|c1 s IH]; intros cur Hno; [reflexivity |].
  specialize (IH (cur ++ [c1]) (fun H => Hno (occurs_cons _ _ c1 H))).
  destruct s as [|c2 [|c3 s]]; cbn -[N.eqb strip]; try exact IH.
  destruct ((c1 =? 45) && (c2 =? 45) && (c3 =? 62))%N eqn:E; [| exact IH].
  exfalso. apply Hno.
  apply andb_true_iff in E as [[H1 H2]%andb_true_iff H3].
  apply N.eqb_eq in H1 as ->, H2 as ->, H3 as ->.
  by exists [], s.
Qed.

(** X18.  A comment runs from the first [<!--] to the first [-->] after it,
    and what is kept is the text between the two without the white space at
    its ends; the search goes on after the closing mark.  Text outside the
    marks is ignored, and an opening mark that is never closed gives
    nothing. *)
Theorem comments_lie_between_the_marks :
  (forall before body after : Text,
      ~ occurs (text_of "<!--") before -> ~ occurs (text_of "-->") body ->
      findall_comments
        (before ++ text_of "<!--" ++ body ++ text_of "-->" ++ after)
      = strip body :: findall_comments after)
  /\ (forall s : Text,
        ~ occurs (text_of "<!--") s -> findall_comments s = [])
  /\ (forall before body : Text,
        ~ occurs (text_of "<!--") before -> ~ occurs (text_of "-->") body ->
        findall_comments (before ++ text_of "<!--" ++ body) = []).
Proof.
  unfold findall_comments. split; [| split].
  - intros before body after Hb Hc.
    by rewrite scan_before_open, scan_before_close.
  - apply scan_without_open.
  - intros before body Hb Hc.
    by rewrite scan_before_open, scan_without_close.
Qed.

Lemma comments_lie_between_the_marks_witness :
  findall_comments
    (text_of "# " ++ text_of "<!--" ++ text_of " hi " ++ text_of "-->" ++ [])
  = strip (text_of " hi ") :: findall_comments [].
Proof.
  apply (proj1 comments_lie_between_the_marks).
  - intros (b & a & H). vm_compute in H.
    do 3 (destruct b as [|? b]; [discriminate |]). discriminate.
  - intros (b & a & H). vm_compute in H.
    do 5 (destruct b as [|? b]; [discriminate |]). discriminate.
Defined.

(** ** What a run of the narration script writes *)

Section VoiceFacts.
Context {Json Audio : Type}.
Variable V : Voicevox Json Audio.

(** A call leaves alone every file but the one of its page, and returns
    [True] only when it has written that file. *)
Lemma text_to_speech_cases (text : Text) (page_num : N)
    (files : gmap string Audio) :
  text_to_speech Json Audio V text page_num files = (false, files)
  \/ exists ok content,
       text_to_speech Json Audio V text page_num files
       = (ok, <[output_file_name page_num := content]> files).
Proof.
  unfold text_to_speech.
  destruct (post_audio_query Json Audio V text) as [|status [query|]];
    try (by left);
    destruct (negb (status =? 200)%nat); try (by left).
  destruct (post_synthesis Json Audio V query) as [|status' content];
    try (by left).
  destruct (negb (status' =? 200)%nat); try (by left).
  destruct (write_file Json Audio V (output_file_name page_num) content)
    as [| |remains]; [right; by exists true, content | by left
                     | right; by exists false, remains].
Qed.

Lemma speak_pages (comments : list (N * Text)) :
  forall st : nat * gmap string Audio,
    let done := foldl (speak_page Json Audio V) st comments in
    (st.1 <= done.1 <= st.1 + length comments)%nat
    /\ (forall name, done.2 !! name <> st.2 !! name ->
          exists p t, (p, t) ∈ comments /\ name = output_file_name p).
Proof.
  induction comments as [|[p t] comments IH]; intros st done; subst done.
  - simpl. split; [lia | done].
  - cbn [foldl length].
    destruct (text_to_speech_cases t p st.2) as [E | (ok & content & E)].
    + assert (Hs : speak_page Json Audio V st (p, t) = (st.1, st.2))
        by (unfold speak_page; cbn [fst snd]; by rewrite E).
      rewrite Hs. destruct (IH (st.1, st.2)) as [Hcount Hfiles].
      cbn [fst snd] in *. split; [lia |]. intros name Hne.
      destruct (Hfiles name Hne) as (p' & t' & Hin & ->).
      exists p', t'. split; [by right | done].
    + assert (Hs : speak_page Json Audio V st (p, t)
                   = (if ok then S st.1 else st.1,
                      <[output_file_name p := content]> st.2))
        by (unfold speak_page; cbn [fst snd]; rewrite E; by destruct ok).
      rewrite Hs.
      destruct (IH (if ok then S st.1 else st.1,
                    <[output_file_name p := content]> st.2))
        as [Hcount Hfiles].
      cbn [fst snd] in *. split; [destruct ok; lia |]. intros name Hne.
      destruct (decide (name = output_file_name p)) as [-> | Hother].
      * exists p, t. split; [left | done].
      * rewrite <- (lookup_insert_ne st.2 (output_file_name p) name content)
          in Hne by done.
        destruct (Hfiles name Hne) as (p' & t' & Hin & ->).
        exists p', t'. split; [by right | done].
Qed.

(** X19.  A run of [process_slide] touches no file of the output directory
    but the [slide_page_pp.wav] of pages [p] that carry a comment.  When it
    prints its summary, the total is the number of such pages and the
    count of successes is at most the total; when the server does not
    answer the version request with status 200 and a JSON body, nothing is
    written at all. *)
Theorem process_slide_writes_only_narration
    (content : option Text) (files : gmap string Audio) :
  let run := process_slide Json Audio V content files in
  let comments := extract_comments_from_slide content in
  (forall name, run.2 !! name <> files !! name ->
     exists p t, (p, t) ∈ comments /\ name = output_file_name p)
  /\ (forall success_count total_count,
        run.1 = Some (success_count, total_count) ->
        total_count = length comments
        /\ (success_count <= total_count)%nat)
  /\ (check_voicevox_connection Json Audio V = false -> run = (None, files)).
Proof.
  intros run comments. subst run. unfold process_slide. fold comments.
  destruct (check_voicevox_connection Json Audio V); cbn [negb].
  - destruct comments as [|c cs] eqn:E; cbv beta iota zeta.
    + split; [done |]. split; [discriminate | discriminate].
    + pose proof (speak_pages (c :: cs) (0%nat, files)) as [Hcount Hfiles].
      cbn [fst snd] in *.
      split; [exact Hfiles |]. split; [| discriminate].
      intros s t [= <- <-]. cbn [foldl length] in Hcount |- *.
      split; [done | lia].
  - split; [done |]. split; [discriminate | done].
Qed.
End VoiceFacts.

Lemma process_slide_writes_only_narration_witness :
  (process_slide unit unit
     (mkVoicevox unit unit (Answer 503 None) (fun _ => NoReply)
        (fun _ => NoReply) (fun _ _ => Written unit))
     (Some (text_of "# A <!-- a -->")) ∅)
  = (None, ∅).
Proof.
  apply (process_slide_writes_only_narration
           (mkVoicevox unit unit (Answer 503 None) (fun _ => NoReply)
              (fun _ => NoReply) (fun _ _ => Written unit))).
  reflexivity.
Defined.


(** * Further properties of the video script *)

Lemma timeline_from_slide resolution pause_before pause_after
    (rest : list (Path * Path)) : forall ds n i image_file audio_file d,
  length rest = length ds ->
  n = (i + S (length rest))%nat ->
  timeline resolution pause_before pause_after n i
    ((image_file, audio_file) :: rest) (d :: ds)
  = pause_before_of resolution pause_before i image_file
    ++ [slide_clip resolution image_file audio_file d]
    ++ after_slide resolution pause_before pause_after image_file rest ds.
Proof.
  induction rest as [|[image' audio'] rest IH];
    intros ds n i image_file audio_file d Hlen Hn;
    destruct ds as [|d' ds]; try discriminate.
  - cbn [timeline after_slide]. unfold segments, pause_after_of.
    replace (i <? n - 1)%nat with false
      by (symmetry; apply Nat.ltb_ge; simpl in Hn; lia).
    cbn [andb]. by rewrite !app_nil_r.
  - injection Hlen as Hlen.
    change (timeline resolution pause_before pause_after n i
              ((image_file, audio_file) :: (image', audio') :: rest)
              (d :: d' :: ds))
      with (segments resolution pause_before pause_after n i image_file
              audio_file d
            ++ timeline resolution pause_before pause_after n (S i)
                 ((image', audio') :: rest) (d' :: ds)).
    rewrite (IH ds n (S i) image' audio' d' Hlen) by (simpl in Hn |- *; lia).
    unfold segments, pause_after_of, pause_before_of at 2.
    replace (i <? n - 1)%nat with true
      by (symmetry; apply Nat.ltb_lt; simpl in Hn; lia).
    cbn [after_slide andb Nat.ltb Nat.leb].
    by rewrite <- !app_assoc.
Qed.

(** X20.  Between two consecutive slides the timeline holds, in this
    order, the pause after on the image of the earlier slide (when
    [pause_after > 0]) and the pause before on the image of the later
    slide (when [pause_before > 0]); the first clip is the first slide and
    nothing follows the last slide. *)
Theorem timeline_between_slides
    B resolution pause_before pause_after image_file audio_file d rest ds
    already_open :
  (forall r, resolution = Some r -> resize_ok B r = true) ->
  Forall2 (served B) ((image_file, audio_file) :: rest) (d :: ds) ->
  exists fr,
    timeline_loop B resolution pause_before pause_after (S (length rest)) 0
      ((image_file, audio_file) :: rest) (start already_open) = (fr, inr tt)
    /\ clips fr
       = slide_clip resolution image_file audio_file d
         :: after_slide resolution pause_before pause_after image_file rest
              ds.
Proof.
  intros Hres Hserved.
  pose proof (Forall2_length _ _ _ Hserved) as Hlen. injection Hlen as Hlen.
  eexists. split; [by apply timeline_loop_ok |].
  cbn [run_clips start clips app].
  by rewrite (timeline_from_slide resolution pause_before pause_after rest
                ds (S (length rest)) 0 image_file audio_file d Hlen eq_refl).
Qed.

Lemma timeline_between_slides_witness :
  exists fr,
    timeline_loop studio None (1 # 2) (1 # 4) 2 0
      [(mkPath "dist" "slide01.png", mkPath "dist" "voice01.wav");
       (mkPath "dist" "slide02.png", mkPath "dist" "voice02.wav")]
      (start []) = (fr, inr tt)
    /\ clips fr
       = [slide_clip None (mkPath "dist" "slide01.png")
            (mkPath "dist" "voice01.wav") 3;
          pause_clip None (mkPath "dist" "slide01.png") (1 # 4);
          pause_clip None (mkPath "dist" "slide02.png") (1 # 2);
          slide_clip None (mkPath "dist" "slide02.png")
            (mkPath "dist" "voice02.wav") 2].
Proof.
  apply (timeline_between_slides studio None (1 # 2) (1 # 4)
           (mkPath "dist" "slide01.png") (mkPath "dist" "voice01.wav") 3
           [(mkPath "dist" "slide02.png", mkPath "dist" "voice02.wav")]
           [2%Q] []).
  - discriminate.
  - repeat constructor.
Defined.

(** X21.  No file serves two slides: in the list that
    [find_matching_files] returns, no image occurs twice and no audio file
    occurs twice. *)
Theorem find_matching_files_uses_each_file_once
    input_dir image_order audio_order entries pairs :
  image_order ≡ₚ image_extensions -> audio_order ≡ₚ audio_extensions ->
  find_matching_files input_dir image_order audio_order entries = inr pairs ->
  NoDup (pairs.*1) /\ NoDup (pairs.*2).
Proof.
  intros Hi Ha Hr.
  pose proof (find_matching_files_numbers _ _ _ _ _ Hi Ha Hr) as HF.
  pose proof (sorted_ascending
                (image_indices input_dir entries
                 ∩ audio_indices input_dir entries)) as Hs.
  revert HF Hs. generalize (sorted (image_indices input_dir entries
                                    ∩ audio_indices input_dir entries)).
  intros numbers HF Hs.
  assert (Hnd : NoDup (Some <$> numbers)).
  { apply (NoDup_fmap_2 Some). clear HF.
    induction Hs as [|k numbers Hs IH Hall]; constructor; [| done].
    intros Hin. rewrite Forall_forall in Hall.
    specialize (Hall k Hin). lia. }
  assert (H1 : (fun f => extract_number_from_filename (name f)) <$> pairs.*1
               = Some <$> numbers).
  { clear Hnd Hs Hr. induction HF as [|k p numbers pairs [Hk _] _ IH];
      [done | by rewrite !fmap_cons, Hk, IH]. }
  assert (H2 : (fun f => extract_number_from_filename (name f)) <$> pairs.*2
               = Some <$> numbers).
  { clear Hnd Hs H1 Hr. induction HF as [|k p numbers pairs [_ Hk] _ IH];
      [done | by rewrite !fmap_cons, Hk, IH]. }
  split.
  - eapply NoDup_fmap_1. by rewrite H1.
  - eapply NoDup_fmap_1. by rewrite H2.
Qed.

Lemma find_matching_files_uses_each_file_once_witness :
  NoDup ([(mkPath "dist" "s1.png", mkPath "dist" "v1.wav");
          (mkPath "dist" "s2.png", mkPath "dist" "v2.wav")].*1)
  /\ NoDup ([(mkPath "dist" "s1.png", mkPath "dist" "v1.wav");
             (mkPath "dist" "s2.png", mkPath "dist" "v2.wav")].*2).
Proof.
  apply (find_matching_files_uses_each_file_once "dist" image_extensions
           audio_extensions ["v2.wav"; "s1.png"; "s2.png"; "v1.wav"]).
  - reflexivity.
  - reflexivity.
  - vm_compute. reflexivity.
Defined.

(** X22.  Without a page number common to the recognised images and the
    recognised audio files, [generate_video] raises the [ValueError] of
    [find_matching_files] before it touches the backend: no media file is
    opened and no clip is made. *)
Theorem generate_video_without_pairs
    B resolution pause_before pause_after input_dir image_order audio_order
    entries output_path fr :
  image_order ≡ₚ image_extensions -> audio_order ≡ₚ audio_extensions ->
  image_indices input_dir entries ∩ audio_indices input_dir entries = ∅ ->
  generate_video B resolution pause_before pause_after input_dir image_order
    audio_order entries output_path fr
  = (fr, inl (ValueError NoMatchingPairs)).
Proof.
  intros Hi Ha Hempty. unfold generate_video.
  pose proof (common_indices input_dir _ _ entries Hi Ha) as Hc.
  destruct (find_matching_files_spec input_dir image_order audio_order entries)
    as [[_ ->] | (Hne & _)]; [reflexivity |].
  rewrite Hc in Hne. done.
Qed.

Lemma generate_video_without_pairs_witness :
  generate_video studio None (3 # 4) (3 # 4) "dist" image_extensions
    audio_extensions ["slide1.png"; "voice2.wav"] "talk.mp4" (start [])
  = (start [], inl (ValueError NoMatchingPairs)).
Proof.
  apply generate_video_without_pairs.
  - reflexivity.
  - reflexivity.
  - apply (bool_decide_unpack _). vm_compute. reflexivity.
Defined.
